(** * worker-mailer: the MIME composition of [src/email.ts]

    A shallow embedding of the [Email] class (constructor, [toUsers],
    [getEmailData] and its private helpers) together with the properties
    of the composed payload.

    Conventions of the embedding.
    - A JavaScript string is the list of its UTF-16 code units
      ([jsstring], a [list N]); [length] is the JavaScript [.length].
    - A [Buffer] is a [list byte].
    - An optional field ([x?: T]) is an [option]; JavaScript truthiness of
      a string is non-emptiness.
    - An object used as a string map is an association list in creation
      order, with [hget]/[hset] for property read and write and [entries]
      for [Object.entries].  The headers object lives in a [Store] and the
      message holds its reference, as the message and its caller share the
      object.
    - [crypto.randomBytes], [crypto.randomUUID] and [new Date()] read an
      explicit [World]; the methods run in a state-and-exception monad over
      the world, the store and the message. *)

From Stdlib Require Import String Ascii.
From Stdlib.Strings Require Import Byte.
From Stdlib Require Import NArith ZArith Arith Lia Bool Permutation List.
Import ListNotations.

(* ================================================================== *)
(** ** JavaScript strings *)

Abbreviation jsstring := (list N).

(** A string literal of the source. *)
Definition lit (s : string) : jsstring :=
  map N_of_ascii (list_ascii_of_string s).

Arguments lit s%_string : simpl never.

Fixpoint str_eqb (a b : jsstring) : bool :=
  match a, b with
  | [], [] => true
  | x :: a', y :: b' => N.eqb x y && str_eqb a' b'
  | _, _ => false
  end.

(** Truthiness of a string value: [''] is falsy. *)
Definition nonempty (s : jsstring) : bool :=
  match s with [] => false | _ :: _ => true end.

(** Truthiness of an optional string: [undefined] and [''] are falsy. *)
Definition truthy (o : option jsstring) : bool :=
  match o with Some s => nonempty s | None => false end.

(** [a || b] on an optional string with a string default. *)
Definition or_else (o : option jsstring) (d : jsstring) : jsstring :=
  match o with
  | Some s => if nonempty s then s else d
  | None => d
  end.

(** [Array.prototype.join]. *)
Fixpoint join (sep : jsstring) (l : list jsstring) : jsstring :=
  match l with
  | [] => []
  | [x] => x
  | x :: t => x ++ sep ++ join sep t
  end.

(** [String.prototype.split] with a one-character separator. *)
Fixpoint split_aux (sep : N) (cur s : jsstring) : list jsstring :=
  match s with
  | [] => [cur]
  | c :: s' =>
      if N.eqb c sep then cur :: split_aux sep [] s'
      else split_aux sep (cur ++ [c]) s'
  end.

Definition split (sep : N) (s : jsstring) : list jsstring :=
  split_aux sep [] s.

(** [Array.prototype.pop]: the last element, [undefined] on [[]]. *)
Fixpoint pop {A : Type} (l : list A) : option A :=
  match l with
  | [] => None
  | [x] => Some x
  | _ :: t => pop t
  end.

(** A template-literal hole filled with a possibly undefined string. *)
Definition interp (o : option jsstring) : jsstring :=
  match o with Some s => s | None => lit "undefined" end.

(** [String.prototype.slice(i, j)] for [0 <= i <= j]. *)
Definition slice (s : jsstring) (i j : nat) : jsstring :=
  firstn (j - i) (skipn i s).

(** [String.prototype.toLowerCase] on the ASCII letters.  Code units
    outside [A-Z] are left as they are; the only other code unit whose
    lower case is an ASCII letter is U+212A (to [k]), and no key of the
    tables below contains a [k]. *)
Definition lower_unit (c : N) : N :=
  if (N.leb 65 c && N.leb c 90)%bool then (c + 32)%N else c.

Definition toLowerCase (s : jsstring) : jsstring := map lower_unit s.

(** The class [\s] of a JavaScript regular expression. *)
Definition is_space (c : N) : bool :=
  existsb (N.eqb c)
    [9; 10; 11; 12; 13; 32; 160; 5760; 8232; 8233; 8239; 8287; 12288; 65279]%N
  || (N.leb 8192 c && N.leb c 8202).

(** The complement of [.]: the line terminators. *)
Definition is_line_terminator (c : N) : bool :=
  existsb (N.eqb c) [10; 13; 8232; 8233]%N.

Definition emit (cur : jsstring) : list jsstring :=
  match cur with [] => [] | _ :: _ => [cur] end.

(** [s.match(/\S+/g) || []]: the maximal runs of non-space code units. *)
Fixpoint match_nonspace_aux (cur s : jsstring) : list jsstring :=
  match s with
  | [] => emit cur
  | c :: s' =>
      if is_space c then emit cur ++ match_nonspace_aux [] s'
      else match_nonspace_aux (cur ++ [c]) s'
  end.

Definition match_nonspace (s : jsstring) : list jsstring :=
  match_nonspace_aux [] s.

(** [s.match(/.{1,k}/g)]: greedy runs of at most [k] code units that are
    not line terminators; the empty list stands for the [null] result. *)
Fixpoint match_dot_aux (k : nat) (cur s : jsstring) : list jsstring :=
  match s with
  | [] => emit cur
  | c :: s' =>
      if is_line_terminator c then emit cur ++ match_dot_aux k [] s'
      else if Nat.eqb (length cur) k then cur :: match_dot_aux k [c] s'
      else match_dot_aux k (cur ++ [c]) s'
  end.

Definition match_dot (k : nat) (s : jsstring) : list jsstring :=
  match_dot_aux k [] s.

(* ================================================================== *)
(** ** Buffers: UTF-8, hexadecimal and base64 *)

Definition byte_of_N (n : N) : byte :=
  match Byte.of_N (n mod 256) with Some b => b | None => x00 end.

Definition is_high_surrogate (c : N) : bool := N.leb 55296 c && N.leb c 56319.
Definition is_low_surrogate (c : N) : bool := N.leb 56320 c && N.leb c 57343.

(** U+FFFD, written for an unpaired surrogate. *)
Definition replacement : list byte := [xef; xbf; xbd].

Definition utf8_3 (c : N) : list byte :=
  [byte_of_N (224 + c / 4096); byte_of_N (128 + (c / 64) mod 64);
   byte_of_N (128 + c mod 64)]%N.

Definition utf8_4 (cp : N) : list byte :=
  [byte_of_N (240 + cp / 262144); byte_of_N (128 + (cp / 4096) mod 64);
   byte_of_N (128 + (cp / 64) mod 64); byte_of_N (128 + cp mod 64)]%N.

(** [Buffer.from(s, 'utf8')]. *)
Fixpoint utf8_encode (s : jsstring) : list byte :=
  match s with
  | [] => []
  | c :: s' =>
      if N.ltb c 128 then byte_of_N c :: utf8_encode s'
      else if N.ltb c 2048 then
        byte_of_N (192 + c / 64) :: byte_of_N (128 + c mod 64) :: utf8_encode s'
      else if is_high_surrogate c then
        match s' with
        | d :: s'' =>
            if is_low_surrogate d then
              utf8_4 (65536 + (c - 55296) * 1024 + (d - 56320)) ++ utf8_encode s''
            else replacement ++ utf8_encode s'
        | [] => replacement
        end
      else if is_low_surrogate c then replacement ++ utf8_encode s'
      else utf8_3 c ++ utf8_encode s'
  end%N.

Definition hex_digit (n : N) : N :=
  if N.ltb n 10 then (48 + n)%N else (87 + n)%N.

Definition hex_of_byte (b : byte) : jsstring :=
  [hex_digit (Byte.to_N b / 16); hex_digit (Byte.to_N b mod 16)]%N.

(** [buf.toString('hex')]. *)
Definition toString_hex (bs : list byte) : jsstring := flat_map hex_of_byte bs.

(** The base64 alphabet [A-Za-z0-9+/]. *)
Definition b64_char (n : N) : N :=
  (if N.ltb n 26 then 65 + n
   else if N.ltb n 52 then 71 + n
   else if N.ltb n 62 then n - 4
   else if N.eqb n 62 then 43 else 47)%N.

Definition b64_index (c : N) : option N :=
  (if N.leb 65 c && N.leb c 90 then Some (c - 65)
   else if N.leb 97 c && N.leb c 122 then Some (c - 71)
   else if N.leb 48 c && N.leb c 57 then Some (c + 4)
   else if N.eqb c 43 then Some 62
   else if N.eqb c 47 then Some 63
   else None)%N.

Definition pad : N := 61%N.

(** [buf.toString('base64')]. *)
Fixpoint toString_base64 (bs : list byte) : jsstring :=
  match bs with
  | [] => []
  | [a] =>
      let x := Byte.to_N a in
      [b64_char (x / 4); b64_char ((x mod 4) * 16); pad; pad]
  | [a; b] =>
      let x := Byte.to_N a in
      let y := Byte.to_N b in
      [b64_char (x / 4); b64_char ((x mod 4) * 16 + y / 16);
       b64_char ((y mod 16) * 4); pad]
  | a :: b :: c :: rest =>
      let x := Byte.to_N a in
      let y := Byte.to_N b in
      let z := Byte.to_N c in
      b64_char (x / 4) :: b64_char ((x mod 4) * 16 + y / 16)
      :: b64_char ((y mod 16) * 4 + z / 64) :: b64_char (z mod 64)
      :: toString_base64 rest
  end%N.

(** The inverse reading of a padded base64 text (RFC 4648, strict). *)
Fixpoint base64_decode (s : jsstring) : option (list byte) :=
  match s with
  | [] => Some []
  | c1 :: c2 :: c3 :: c4 :: rest =>
      match b64_index c1, b64_index c2 with
      | Some s1, Some s2 =>
          let b1 := byte_of_N (s1 * 4 + s2 / 16) in
          if N.eqb c3 pad && N.eqb c4 pad then
            match rest with [] => Some [b1] | _ :: _ => None end
          else
            match b64_index c3 with
            | Some s3 =>
                let b2 := byte_of_N ((s2 mod 16) * 16 + s3 / 4) in
                if N.eqb c4 pad then
                  match rest with [] => Some [b1; b2] | _ :: _ => None end
                else
                  match b64_index c4 with
                  | Some s4 =>
                      let b3 := byte_of_N ((s3 mod 4) * 64 + s4) in
                      match base64_decode rest with
                      | Some bs => Some (b1 :: b2 :: b3 :: bs)
                      | None => None
                      end
                  | None => None
                  end
            | None => None
            end
      | _, _ => None
      end
  | _ => None
  end%N.


(* ================================================================== *)
(** ** Plain objects used as string maps *)

(** [Record<string, string>]: own properties in creation order. *)
Definition Headers := list (jsstring * jsstring).

(** Property read, [h[k]]. *)
Fixpoint hget (k : jsstring) (h : Headers) : option jsstring :=
  match h with
  | [] => None
  | (k', v) :: t => if str_eqb k k' then Some v else hget k t
  end.

(** Property write, [h[k] = v]: an existing key keeps its position, a new
    key is created last. *)
Fixpoint hset (k v : jsstring) (h : Headers) : Headers :=
  match h with
  | [] => [(k, v)]
  | (k', v') :: t =>
      if str_eqb k k' then (k', v) :: t else (k', v') :: hset k v t
  end.

Definition is_digit (c : N) : bool := N.leb 48 c && N.leb c 57.

Fixpoint digits_value (acc : N) (s : jsstring) : N :=
  match s with
  | [] => acc
  | c :: s' => digits_value (acc * 10 + (c - 48)) s'
  end%N.

(** A key that is an array index (a canonical numeral below 2^32 - 1). *)
Definition array_index (k : jsstring) : option N :=
  match k with
  | [] => None
  | c :: rest =>
      if forallb is_digit k && (negb (N.eqb c 48) || negb (nonempty rest))
      then
        let v := digits_value 0 k in
        if N.ltb v 4294967295 then Some v else None
      else None
  end.

Definition named_key (p : jsstring * jsstring) : bool :=
  match array_index (fst p) with Some _ => false | None => true end.

Fixpoint insert_index (i : N) (p : jsstring * jsstring)
    (l : list (N * (jsstring * jsstring))) : list (N * (jsstring * jsstring)) :=
  match l with
  | [] => [(i, p)]
  | (j, q) :: t =>
      if N.leb i j then (i, p) :: (j, q) :: t else (j, q) :: insert_index i p t
  end.

Fixpoint index_entries (h : Headers) : list (N * (jsstring * jsstring)) :=
  match h with
  | [] => []
  | p :: t =>
      match array_index (fst p) with
      | Some i => insert_index i p (index_entries t)
      | None => index_entries t
      end
  end.

(** [Object.entries(h)]: array-index keys in ascending order, then the
    other keys in creation order. *)
Definition entries (h : Headers) : list (jsstring * jsstring) :=
  map snd (index_entries h) ++ filter named_key h.


(** *** The store

    Objects are held in a store and named by references, so that the
    message and its caller can share one headers object.  A reference
    beyond the store denotes an object without properties. *)
Definition ref := nat.

Definition Store := list Headers.

Definition deref (st : Store) (r : ref) : Headers := nth r st [].

(** Writing an object back at its reference. *)
Fixpoint store_set (st : Store) (r : ref) (o : Headers) : Store :=
  match r, st with
  | 0, [] => [o]
  | 0, _ :: t => o :: t
  | S r', [] => [] :: store_set [] r' o
  | S r', x :: t => x :: store_set t r' o
  end.

(** A new object: [{}] and the like. *)
Definition alloc (st : Store) (o : Headers) : ref * Store :=
  (length st, st ++ [o]).

(* ================================================================== *)
(** ** The data model of [email.ts] *)

Record User := mkUser { name : option jsstring; email : jsstring }.

(** [string | User]. *)
Inductive StringOrUser :=
| OfString (s : jsstring)
| OfUser (u : User).

(** [string | string[] | User | User[]]. *)
Inductive Recipients :=
| OneString (s : jsstring)
| OneUser (u : User)
| Many (l : list StringOrUser).

Record Attachment := mkAttachment {
  filename : jsstring;
  content : jsstring;
  mimeType : option jsstring
}.

Record RetPolicy := mkRet { HEADERS : option bool; FULL : option bool }.

Record NotifyPolicy := mkNotify {
  DELAY : option bool; FAILURE : option bool; SUCCESS : option bool
}.

Record DsnOverride := mkDsn {
  envelopeId : option jsstring;
  RET : option RetPolicy;
  NOTIFY : option NotifyPolicy
}.

Record EmailOptions := mkOptions {
  opt_from : StringOrUser;
  opt_to : Recipients;
  opt_reply : option StringOrUser;
  opt_cc : option Recipients;
  opt_bcc : option Recipients;
  opt_subject : jsstring;
  opt_text : option jsstring;
  opt_html : option jsstring;
  opt_headers : option ref;
  opt_attachments : option (list Attachment);
  opt_dsnOverride : option DsnOverride
}.

(** The fields of an [Email] object.  [to] is declared [User[]] but holds
    whatever [toUsers] returned, so it is optional here; [headers] is the
    reference of the headers object.  The completion promise ([sent],
    [setSent], [setSentError]) takes no part in the composition and is left
    out. *)
Record Email := mkEmail {
  from : User;
  to : option (list User);
  reply : option User;
  cc : option (list User);
  bcc : option (list User);
  subject : jsstring;
  text : option jsstring;
  html : option jsstring;
  dsnOverride : option DsnOverride;
  attachments : option (list Attachment);
  headers : ref
}.


Inductive exn :=
| Error (message : jsstring)
| TypeError (message : jsstring)
| RangeError (message : jsstring).

(** The outcome of a call: a value, an exception, or a run that does not
    end; no method of the class has a run of the last kind. *)
Inductive Result (A : Type) :=
| Ok (a : A)
| Throw (e : exn)
| Diverge.

Arguments Ok {A} a.
Arguments Throw {A} e.
Arguments Diverge {A}.

(** [Email.toUsers]. *)
Definition toUsers (user : option Recipients) : option (list User) :=
  match user with
  | None => None
  | Some (OneString s) =>
      if nonempty s then Some [mkUser None s] else None
  | Some (Many l) =>
      Some (map (fun user =>
                   match user with
                   | OfString s => mkUser None s
                   | OfUser u => u
                   end) l)
  | Some (OneUser u) => Some [u]
  end.

(** [new Email(options)], in a store: [options.headers || {}] is the
    caller's object when there is one and a new empty object otherwise. *)
Definition constructor (options : EmailOptions) (st : Store)
    : Result Email * Store :=
  if negb (truthy (opt_text options)) && negb (truthy (opt_html options))
  then (Throw (Error (lit "At least one of text or html must be provided")), st)
  else
    let from :=
      match opt_from options with
      | OfString s => mkUser None s
      | OfUser u => u
      end in
    let reply :=
      match opt_reply options with
      | Some (OfString s) => Some (mkUser None s)
      | Some (OfUser u) => Some u
      | None => None
      end in
    let (headers, st') :=
      match opt_headers options with
      | Some r => (r, st)
      | None => alloc st []
      end in
    (Ok (mkEmail from
           (toUsers (Some (opt_to options)))
           reply
           (toUsers (opt_cc options))
           (toUsers (opt_bcc options))
           (opt_subject options)
           (opt_text options)
           (opt_html options)
           (opt_dsnOverride options)
           (opt_attachments options)
           headers),
     st').

(* ================================================================== *)
(** ** The environment and the monad of the methods *)

(** What the methods read from outside: the bytes of
    [crypto.randomBytes], the results of [crypto.randomUUID()] and of
    [new Date().toUTCString()], each with the number of reads so far. *)
Record World := mkWorld {
  random_source : nat -> byte;
  random_used : nat;
  uuid_source : nat -> jsstring;
  uuid_used : nat;
  clock : nat -> jsstring;
  clock_reads : nat
}.

Record State := mkState { world : World; store : Store; this : Email }.

Definition M (A : Type) : Type := State -> Result A * State.

Definition ret {A : Type} (a : A) : M A := fun s => (Ok a, s).

Definition bind {A B : Type} (m : M A) (f : A -> M B) : M B :=
  fun s =>
    match m s with
    | (Ok a, s') => f a s'
    | (Throw e, s') => (Throw e, s')
    | (Diverge, s') => (Diverge, s')
    end.

Notation "x <- m ;; k" := (bind m (fun x => k))
  (at level 61, m at next level, right associativity).
Notation "m ;;; k" := (bind m (fun _ => k))
  (at level 61, right associativity).

Definition throw {A : Type} (e : exn) : M A := fun s => (Throw e, s).

Definition get_this : M Email := fun s => (Ok (this s), s).

(** The headers object of the message. *)
Definition headers_of (s : State) : Headers :=
  deref (store s) (headers (this s)).

(** [this.headers[k]]. *)
Definition get_header (k : jsstring) : M (option jsstring) :=
  fun s => (Ok (hget k (headers_of s)), s).

(** [this.headers[k] = v]. *)
Definition set_header (k v : jsstring) : M unit :=
  fun s =>
    (Ok tt,
     mkState (world s)
       (store_set (store s) (headers (this s)) (hset k v (headers_of s)))
       (this s)).

(** [Object.entries(this.headers)]. *)
Definition header_entries : M (list (jsstring * jsstring)) :=
  fun s => (Ok (entries (headers_of s)), s).

(** The outcome of a call of [wrapText]: the lines it returns, or the
    [RangeError] of a [push] on a full array when the option is [None]. *)
Definition or_range_error {A : Type} (o : option A) : M A :=
  fun s =>
    match o with
    | Some a => (Ok a, s)
    | None => (Throw (RangeError (lit "Invalid array length")), s)
    end.

(** [crypto.randomBytes(n)]. *)
Definition randomBytes (n : nat) : M (list byte) :=
  fun s =>
    let w := world s in
    (Ok (map (random_source w) (seq (random_used w) n)),
     mkState (mkWorld (random_source w) (random_used w + n)
                      (uuid_source w) (uuid_used w)
                      (clock w) (clock_reads w))
             (store s) (this s)).

(** [crypto.randomUUID()]. *)
Definition randomUUID : M jsstring :=
  fun s =>
    let w := world s in
    (Ok (uuid_source w (uuid_used w)),
     mkState (mkWorld (random_source w) (random_used w)
                      (uuid_source w) (S (uuid_used w))
                      (clock w) (clock_reads w))
             (store s) (this s)).

(** [new Date().toUTCString()]. *)
Definition now_toUTCString : M jsstring :=
  fun s =>
    let w := world s in
    (Ok (clock w (clock_reads w)),
     mkState (mkWorld (random_source w) (random_used w)
                      (uuid_source w) (uuid_used w)
                      (clock w) (S (clock_reads w)))
             (store s) (this s)).

(* ================================================================== *)
(** ** The private helpers *)

Definition CRLF : jsstring := [13; 10]%N.
Definition DQ : jsstring := [34]%N.

(** The characters of the class in [generateSafeBoundary]. *)
Definition unsafe_char (c : N) : bool :=
  existsb (N.eqb c) [60; 62; 64; 44; 59; 58; 92; 47; 91; 93; 63; 61; 34; 32]%N.

Definition underscore : N := 95%N.

(** The [replace] of [generateSafeBoundary]: every character of the
    class becomes an underscore. *)
Definition replace_unsafe (s : jsstring) : jsstring :=
  map (fun c => if unsafe_char c then underscore else c) s.

(** [generateSafeBoundary(prefix)]. *)
Definition generateSafeBoundary (prefix : jsstring) : M jsstring :=
  bytes <- randomBytes 28 ;;
  let boundary := prefix ++ toString_hex bytes in
  let boundary := replace_unsafe boundary in
  ret boundary.

(** A value read from a table object: a string of the table, or a member
    inherited from [Object.prototype]. *)
Inductive jsvalue :=
| VString (s : jsstring)
| VFunction (fname : jsstring)
| VObjectPrototype.

(** The value inside a template literal. *)
Definition to_string (v : jsvalue) : jsstring :=
  match v with
  | VString s => s
  | VFunction f => lit "function " ++ f ++ lit "() { [native code] }"
  | VObjectPrototype => lit "[object Object]"
  end.

Definition value_truthy (v : jsvalue) : bool :=
  match v with VString s => nonempty s | _ => true end.

Definition mimeTypes : Headers :=
  [ (lit "txt", lit "text/plain");
    (lit "html", lit "text/html");
    (lit "csv", lit "text/csv");
    (lit "pdf", lit "application/pdf");
    (lit "png", lit "image/png");
    (lit "jpg", lit "image/jpeg");
    (lit "jpeg", lit "image/jpeg");
    (lit "gif", lit "image/gif");
    (lit "zip", lit "application/zip") ].

Definition object_prototype_functions : list jsstring :=
  [ lit "__defineGetter__"; lit "__defineSetter__";
    lit "__lookupGetter__"; lit "__lookupSetter__";
    lit "hasOwnProperty"; lit "isPrototypeOf";
    lit "propertyIsEnumerable"; lit "toLocaleString";
    lit "toString"; lit "valueOf" ].

(** The members every object literal inherits. *)
Definition object_prototype (k : jsstring) : option jsvalue :=
  if str_eqb k (lit "__proto__") then Some VObjectPrototype
  else if str_eqb k (lit "constructor") then Some (VFunction (lit "Object"))
  else if existsb (str_eqb k) object_prototype_functions
       then Some (VFunction k)
  else None.

(** [mimeTypes[k]]. *)
Definition mimeTypes_get (k : jsstring) : option jsvalue :=
  match hget k mimeTypes with
  | Some v => Some (VString v)
  | None => object_prototype k
  end.

Definition dot : N := 46%N.
Definition at_sign : N := 64%N.

(** [getMimeType(filename)]. *)
Definition getMimeType (filename : jsstring) : jsvalue :=
  let extension := option_map toLowerCase (pop (split dot filename)) in
  match mimeTypes_get (or_else extension (lit "txt")) with
  | Some v => if value_truthy v then v else VString (lit "application/octet-stream")
  | None => VString (lit "application/octet-stream")
  end.

(** The inner [for] loop of [wrapText].  With a positive [maxLength] the
    index grows in every round and [length word] rounds are enough.  With
    [maxLength] 0 the index stays where it is and every round pushes an
    empty slice, until the array is full and [push] throws [RangeError]:
    [None] stands for that outcome. *)
Fixpoint wrapText_slices (fuel : nat) (word : jsstring) (i maxLength : nat)
    (lines : list jsstring) : option (list jsstring) :=
  if i <? length word then
    match fuel with
    | 0 => None
    | S fuel' =>
        wrapText_slices fuel' word (i + maxLength) maxLength
          (lines ++ [slice word i (i + maxLength)])
    end
  else Some lines.

(** The [for (const word of words)] loop of [wrapText]. *)
Fixpoint wrapText_loop (words : list jsstring) (lines : list jsstring)
    (currentLine : jsstring) (maxLength : nat)
    : option (list jsstring * jsstring) :=
  match words with
  | [] => Some (lines, currentLine)
  | word :: rest =>
      if maxLength <? length word then
        let lines := if nonempty currentLine then lines ++ [currentLine] else lines in
        match wrapText_slices (length word) word 0 maxLength lines with
        | Some lines => wrapText_loop rest lines [] maxLength
        | None => None
        end
      else if length currentLine + length word
              + (if nonempty currentLine then 1 else 0) <=? maxLength then
        wrapText_loop rest lines
          (currentLine ++ (if nonempty currentLine then lit " " else []) ++ word)
          maxLength
      else wrapText_loop rest (lines ++ [currentLine]) word maxLength
  end.

(** [wrapText(text, maxLength)]; the limit is a natural number, as at
    the two call sites (998 and 76).  [None] stands for a call that ends
    with the [RangeError] of the inner loop, which happens for the limit 0
    on a text with a word. *)
Definition wrapText (text : jsstring) (maxLength : nat) : option (list jsstring) :=
  match wrapText_loop (match_nonspace text) [] [] maxLength with
  | Some (lines, currentLine) =>
      Some (if nonempty currentLine then lines ++ [currentLine] else lines)
  | None => None
  end.

(** The address format shared by the [resolve*] methods. *)
Definition format_user (user : User) : jsstring :=
  if truthy (name user)
  then interp (name user) ++ lit " <" ++ email user ++ lit ">"
  else email user.

Definition resolveFrom : M unit :=
  e <- get_this ;;
  set_header (lit "From") (format_user (from e)).

Definition resolveTo : M unit :=
  e <- get_this ;;
  match to e with
  | None =>
      throw (TypeError (lit "Cannot read properties of undefined (reading 'map')"))
  | Some users =>
      let toAddresses := map format_user users in
      set_header (lit "To") (join (lit ", ") toAddresses)
  end.

Definition resolveSubject : M unit :=
  e <- get_this ;;
  set_header (lit "Subject")
    (lit "=?utf-8?b?" ++ toString_base64 (utf8_encode (subject e)) ++ lit "?=").

Definition resolveReply : M unit :=
  e <- get_this ;;
  match reply e with
  | Some r => set_header (lit "Reply-To") (format_user r)
  | None => ret tt
  end.

Definition resolveCC : M unit :=
  e <- get_this ;;
  match cc e with
  | Some users =>
      let ccAddresses := map format_user users in
      set_header (lit "CC") (join (lit ", ") ccAddresses)
  | None => ret tt
  end.

(** The assignment of the [BCC] header is commented out in the source:
    the addresses are formatted and dropped. *)
Definition resolveBCC : M unit :=
  e <- get_this ;;
  match bcc e with
  | Some users =>
      let bccAddresses := map format_user users in
      ret tt
  | None => ret tt
  end.

Definition resolveHeader : M unit :=
  resolveFrom ;;;
  resolveTo ;;;
  resolveReply ;;;
  resolveCC ;;;
  resolveBCC ;;;
  resolveSubject ;;;
  (date <- now_toUTCString ;; set_header (lit "Date") date) ;;;
  current <- get_header (lit "Message-ID") ;;
  id <- (if truthy current then ret (interp current)
         else
           uuid <- randomUUID ;;
           e <- get_this ;;
           ret (lit "<" ++ uuid ++ lit "@"
                ++ interp (pop (split at_sign (email (from e)))) ++ lit ">")) ;;
  set_header (lit "Message-ID") id.

(** One iteration of the attachment loop of [getEmailData]. *)
Definition attachment_part (mixedBoundary : jsstring) (attachment : Attachment)
    (emailData : jsstring) : M jsstring :=
  let mimeType :=
    if truthy (mimeType attachment)
    then VString (interp (mimeType attachment))
    else getMimeType (filename attachment) in
  let emailData := emailData ++ lit "--" ++ mixedBoundary ++ CRLF in
  let emailData :=
    emailData ++ lit "Content-Type: " ++ to_string mimeType ++ lit "; name="
    ++ DQ ++ filename attachment ++ DQ ++ CRLF in
  let emailData :=
    emailData ++ lit "Content-Description: " ++ filename attachment ++ CRLF in
  let emailData :=
    emailData ++ lit "Content-Disposition: attachment; filename="
    ++ DQ ++ filename attachment ++ DQ ++ lit ";" ++ CRLF in
  now <- now_toUTCString ;;
  let emailData :=
    emailData ++ lit "    creation-date=" ++ DQ ++ now ++ DQ ++ lit ";" ++ CRLF in
  let emailData :=
    emailData ++ lit "Content-Transfer-Encoding: base64" ++ CRLF ++ CRLF in
  let lines := match_dot 72 (content attachment) in
  let emailData :=
    match lines with
    | _ :: _ => emailData ++ join CRLF lines
    | [] => emailData ++ content attachment
    end in
  ret (emailData ++ CRLF ++ CRLF).

Fixpoint attachment_loop (mixedBoundary : jsstring) (l : list Attachment)
    (emailData : jsstring) : M jsstring :=
  match l with
  | [] => ret emailData
  | attachment :: rest =>
      emailData <- attachment_part mixedBoundary attachment emailData ;;
      attachment_loop mixedBoundary rest emailData
  end.

Definition header_line (p : jsstring * jsstring) : jsstring :=
  fst p ++ lit ": " ++ snd p.

(** [getEmailData()]. *)
Definition getEmailData : M jsstring :=
  resolveHeader ;;;
  e <- get_this ;;
  let headersArray := [lit "MIME-Version: 1.0"] in
  hs <- header_entries ;;
  let headersArray := headersArray ++ map header_line hs in
  mixedBoundary <- generateSafeBoundary (lit "mixed_") ;;
  alternativeBoundary <- generateSafeBoundary (lit "alternative_") ;;
  let headersArray :=
    headersArray
    ++ [lit "Content-Type: multipart/mixed; boundary=" ++ DQ ++ mixedBoundary ++ DQ] in
  let headers := join CRLF headersArray in
  let emailData := headers ++ CRLF ++ CRLF in
  let emailData := emailData ++ lit "--" ++ mixedBoundary ++ CRLF in
  let emailData :=
    emailData ++ lit "Content-Type: multipart/alternative; boundary="
    ++ DQ ++ alternativeBoundary ++ DQ ++ CRLF ++ CRLF in
  emailData <-
    (if truthy (text e) then
       let emailData := emailData ++ lit "--" ++ alternativeBoundary ++ CRLF in
       let emailData :=
         emailData ++ lit "Content-Type: text/plain; charset=" ++ DQ
         ++ lit "utf-8" ++ DQ ++ CRLF ++ CRLF in
       lines <- or_range_error (wrapText (interp (text e)) 998) ;;
       ret (emailData ++ join CRLF lines ++ CRLF ++ CRLF)
     else ret emailData) ;;
  emailData <-
    (if truthy (html e) then
       let emailData := emailData ++ lit "--" ++ alternativeBoundary ++ CRLF in
       let emailData :=
         emailData ++ lit "Content-Type: text/html; charset=" ++ DQ
         ++ lit "utf-8" ++ DQ ++ CRLF
         ++ lit "Content-Transfer-Encoding: base64" ++ CRLF ++ CRLF in
       lines <- or_range_error
                  (wrapText (toString_base64 (utf8_encode (interp (html e)))) 76) ;;
       ret (emailData ++ join CRLF lines ++ CRLF ++ CRLF)
     else ret emailData) ;;
  let emailData := emailData ++ lit "--" ++ alternativeBoundary ++ lit "--" ++ CRLF in
  emailData <-
    (match attachments e with
     | Some l => attachment_loop mixedBoundary l emailData
     | None => ret emailData
     end) ;;
  let emailData :=
    emailData ++ lit "--" ++ mixedBoundary ++ lit "--" ++ CRLF ++ lit "." ++ CRLF in
  ret emailData.

(** Running a method on a message in a world and a store. *)
Definition run {A : Type} (m : M A) (w : World) (st : Store) (e : Email)
    : Result A * State :=
  m (mkState w st e).

(* ------------------------------------------------------------------ *)
(** A world and a message for concrete runs. *)

Definition world0 : World :=
  mkWorld (fun i => byte_of_N (N.of_nat i)) 0
          (fun i => lit "3b241101-e2bb-4255-8caf-4136c566a96" ++ [hex_digit (N.of_nat i)]) 0
          (fun i => lit "Tue, 03 Nov 2026 00:00:0" ++ [hex_digit (N.of_nat i)] ++ lit " GMT") 0.

Definition options0 : EmailOptions :=
  mkOptions (OfString (lit "a@example.com")) (OneString (lit "b@example.com"))
    None None None (lit "Hi") (Some (lit "hello")) None None None None.

(* ================================================================== *)
(** ** Notions used in the statements *)

(** A word: a non-empty run without white space. *)
Definition word (w : jsstring) : Prop :=
  w <> [] /\ Forall (fun c => is_space c = false) w.

(** Cutting a string into pieces of [n] code units, the last one shorter. *)
Fixpoint chunks_aux (fuel n : nat) (w : jsstring) : list jsstring :=
  match fuel with
  | 0 => []
  | S fuel' =>
      match w with
      | [] => []
      | _ :: _ => firstn n w :: chunks_aux fuel' n (skipn n w)
      end
  end.

Definition chunks (n : nat) (w : jsstring) : list jsstring :=
  chunks_aux (length w) n w.

(** What [wrapText] makes of one word: itself, or its forced pieces when
    it is longer than the limit. *)
Definition pieces (n : nat) (w : jsstring) : list jsstring :=
  if n <? length w then chunks n w else [w].

(** Removing the line breaks of a text. *)
Definition remove_line_breaks (s : jsstring) : jsstring :=
  filter (fun c => negb (N.eqb c 13 || N.eqb c 10)) s.

(** The boundary made from the 28 random bytes at position [pos]. *)
Definition boundary_at (prefix : jsstring) (w : World) (pos : nat) : jsstring :=
  replace_unsafe (prefix ++ toString_hex (map (random_source w) (seq pos 28))).

(** The lines of a wrapped text ([[]] where [wrapText] returns none). *)
Definition lines_of (o : option (list jsstring)) : list jsstring :=
  match o with Some l => l | None => [] end.

(** The header block: the lines joined by CRLF. *)
Definition header_block (hs : list (jsstring * jsstring)) (mixed : jsstring)
    : jsstring :=
  join CRLF
    ([lit "MIME-Version: 1.0"] ++ map header_line hs
     ++ [lit "Content-Type: multipart/mixed; boundary=" ++ DQ ++ mixed ++ DQ]).

(** A boundary delimiter line and a closing delimiter line. *)
Definition delimiter (b : jsstring) : jsstring := lit "--" ++ b ++ CRLF.
Definition close_delimiter (b : jsstring) : jsstring :=
  lit "--" ++ b ++ lit "--" ++ CRLF.

(** The [text/plain] sub-part with the given body lines. *)
Definition text_part (alt : jsstring) (lines : list jsstring) : jsstring :=
  delimiter alt
  ++ lit "Content-Type: text/plain; charset=" ++ DQ ++ lit "utf-8" ++ DQ
  ++ CRLF ++ CRLF ++ join CRLF lines ++ CRLF ++ CRLF.

(** The [text/html] sub-part with the given body lines. *)
Definition html_part (alt : jsstring) (lines : list jsstring) : jsstring :=
  delimiter alt
  ++ lit "Content-Type: text/html; charset=" ++ DQ ++ lit "utf-8" ++ DQ ++ CRLF
  ++ lit "Content-Transfer-Encoding: base64" ++ CRLF ++ CRLF
  ++ join CRLF lines ++ CRLF ++ CRLF.

(** The sub-parts of the alternative block of a message. *)
Definition alternative_parts (alt : jsstring) (e : Email) : list jsstring :=
  (if truthy (text e)
   then [text_part alt (lines_of (wrapText (interp (text e)) 998))] else [])
  ++
  (if truthy (html e)
   then [html_part alt
           (lines_of (wrapText (toString_base64 (utf8_encode (interp (html e)))) 76))]
   else []).

(** The [multipart/alternative] block: its header, its sub-parts and its
    closing delimiter. *)
Definition alternative_block (alt : jsstring) (parts : list jsstring) : jsstring :=
  lit "Content-Type: multipart/alternative; boundary=" ++ DQ ++ alt ++ DQ
  ++ CRLF ++ CRLF ++ concat parts ++ close_delimiter alt.

(** The type written for an attachment. *)
Definition attachment_type (a : Attachment) : jsstring :=
  to_string (if truthy (mimeType a) then VString (interp (mimeType a))
             else getMimeType (filename a)).

(** The body of an attachment part. *)
Definition attachment_body (a : Attachment) : jsstring :=
  let lines := match_dot 72 (content a) in
  match lines with
  | _ :: _ => join CRLF lines
  | [] => content a
  end.

(** The part of one attachment, created at time [now]. *)
Definition attachment_block (mixed : jsstring) (a : Attachment) (now : jsstring)
    : jsstring :=
  delimiter mixed
  ++ lit "Content-Type: " ++ attachment_type a ++ lit "; name="
  ++ DQ ++ filename a ++ DQ ++ CRLF
  ++ lit "Content-Description: " ++ filename a ++ CRLF
  ++ lit "Content-Disposition: attachment; filename="
  ++ DQ ++ filename a ++ DQ ++ lit ";" ++ CRLF
  ++ lit "    creation-date=" ++ DQ ++ now ++ DQ ++ lit ";" ++ CRLF
  ++ lit "Content-Transfer-Encoding: base64" ++ CRLF ++ CRLF
  ++ attachment_body a ++ CRLF ++ CRLF.

(** The parts of the attachments, the first one created at the [k]-th
    reading of the clock. *)
Fixpoint attachment_blocks (mixed : jsstring) (times : nat -> jsstring) (k : nat)
    (l : list Attachment) : list jsstring :=
  match l with
  | [] => []
  | a :: rest =>
      attachment_block mixed a (times k) :: attachment_blocks mixed times (S k) rest
  end.

Definition attachment_list (e : Email) : list Attachment :=
  match attachments e with Some l => l | None => [] end.

(** The entries of a header block with a given name. *)
Definition named (k : jsstring) (hs : list (jsstring * jsstring))
    : list (jsstring * jsstring) :=
  filter (fun p => str_eqb (fst p) k) hs.



(** The identifier generated for a message without one. *)
Definition generated_id (w : World) (e : Email) : jsstring :=
  lit "<" ++ uuid_source w (uuid_used w) ++ lit "@"
  ++ interp (pop (split at_sign (email (from e)))) ++ lit ">".

Definition subject_word (e : Email) : jsstring :=
  lit "=?utf-8?b?" ++ toString_base64 (utf8_encode (subject e)) ++ lit "?=".

(** The headers object after [resolveHeader], for a message with
    recipients [users] whose headers object was [h0]. *)
Definition resolved_headers (w : World) (e : Email) (users : list User)
    (h0 : Headers) : Headers :=
  let h := hset (lit "From") (format_user (from e)) h0 in
  let h := hset (lit "To") (join (lit ", ") (map format_user users)) h in
  let h := match reply e with
           | Some r => hset (lit "Reply-To") (format_user r) h
           | None => h
           end in
  let h := match cc e with
           | Some l => hset (lit "CC") (join (lit ", ") (map format_user l)) h
           | None => h
           end in
  let h := hset (lit "Subject") (subject_word e) h in
  let h := hset (lit "Date") (clock w (clock_reads w)) h in
  hset (lit "Message-ID")
    (or_else (hget (lit "Message-ID") h) (generated_id w e)) h.

(** The world after [resolveHeader]. *)
Definition resolved_world (w : World) (h0 : Headers) : World :=
  mkWorld (random_source w) (random_used w)
    (uuid_source w)
    (if truthy (hget (lit "Message-ID") h0)
     then uuid_used w else S (uuid_used w))
    (clock w) (S (clock_reads w)).

(** The world after [getEmailData]. *)
Definition final_world (w : World) (e : Email) (h0 : Headers) : World :=
  mkWorld (random_source w) (random_used w + 28 + 28)
    (uuid_source w)
    (if truthy (hget (lit "Message-ID") h0)
     then uuid_used w else S (uuid_used w))
    (clock w) (length (attachment_list e) + S (clock_reads w)).

(** The state after [getEmailData]: the object at the headers reference
    holds the resolved headers. *)
Definition final_state (w : World) (st : Store) (e : Email) (users : list User)
    : State :=
  mkState (final_world w e (deref st (headers e)))
    (store_set st (headers e) (resolved_headers w e users (deref st (headers e))))
    e.

(** The payload of a message with recipients [users] and headers object
    [h0] in world [w]: header block, blank line, then the body. *)
Definition payload (w : World) (e : Email) (users : list User) (h0 : Headers)
    : jsstring :=
  let mixed := boundary_at (lit "mixed_") w (random_used w) in
  let alt := boundary_at (lit "alternative_") w (random_used w + 28) in
  header_block (entries (resolved_headers w e users h0)) mixed
  ++ CRLF ++ CRLF
  ++ delimiter mixed
  ++ alternative_block alt (alternative_parts alt e)
  ++ concat (attachment_blocks mixed (clock w) (S (clock_reads w))
               (attachment_list e))
  ++ close_delimiter mixed ++ lit "." ++ CRLF.


(** Concrete messages. *)
Definition user_b : User := mkUser None (lit "b@example.com").

Definition email0 : Email :=
  mkEmail (mkUser None (lit "a@example.com")) (Some [user_b]) None None None
    (lit "Hi") (Some (lit "hello")) None None None 0.

Definition store0 : Store := [[]].

Definition attachment_pdf : Attachment :=
  mkAttachment (lit "a.pdf") (lit "JVBERi0xLjQK") None.

Definition options1 : EmailOptions :=
  mkOptions (OfUser (mkUser (Some (lit "Ann")) (lit "ann@mail.example.org")))
    (Many [OfString (lit "b@example.com");
           OfUser (mkUser (Some (lit "Cy")) (lit "cy@example.com"))])
    (Some (OfString (lit "reply@example.org")))
    (Some (OneString (lit "d@example.com")))
    (Some (OneString (lit "hidden@example.com")))
    (lit "Hi") (Some (lit "hello world")) (Some (lit "<p>hello</p>"))
    (Some 0)
    (Some [attachment_pdf; mkAttachment (lit "notes") (lit "aGk=") None])
    None.

Definition store1 : Store :=
  [[(lit "X-Mailer", lit "worker"); (lit "From", lit "forged@example.com")]].

Definition email1 : Email :=
  mkEmail (mkUser (Some (lit "Ann")) (lit "ann@mail.example.org"))
    (Some [user_b; mkUser (Some (lit "Cy")) (lit "cy@example.com")])
    (Some (mkUser None (lit "reply@example.org")))
    (Some [mkUser None (lit "d@example.com")])
    (Some [mkUser None (lit "hidden@example.com")])
    (lit "Hi") (Some (lit "hello world")) (Some (lit "<p>hello</p>")) None
    (Some [attachment_pdf; mkAttachment (lit "notes") (lit "aGk=") None])
    0.

(** The keys written by [resolveHeader]. *)
Definition reserved_keys : list jsstring :=
  [lit "From"; lit "To"; lit "Reply-To"; lit "CC"; lit "Subject"; lit "Date";
   lit "Message-ID"].

(** A message without reply address and without cc list whose caller
    supplied a [Reply-To] and a [CC] header. *)
Definition email_reply_header : Email :=
  mkEmail (mkUser None (lit "a@example.com")) (Some [user_b]) None None None
    (lit "Hi") (Some (lit "hello")) None None None 0.

Definition store_reply_header : Store :=
  [[(lit "Reply-To", lit "caller@example.com"); (lit "CC", lit "copy@example.com")]].



(** The state after [n] further calls of [getEmailData]. *)
Fixpoint after_calls (n : nat) (s : State) : State :=
  match n with
  | 0 => s
  | S n' => after_calls n' (snd (getEmailData s))
  end.

(** The names a table object answers to without holding them. *)
Definition inherited_keys : list jsstring :=
  lit "__proto__" :: lit "constructor" :: object_prototype_functions.

(** The table of the specification. *)
Definition mime_table : list (jsstring * jsstring) :=
  [ (lit "txt", lit "text/plain"); (lit "html", lit "text/html");
    (lit "csv", lit "text/csv"); (lit "pdf", lit "application/pdf");
    (lit "png", lit "image/png"); (lit "jpg", lit "image/jpeg");
    (lit "jpeg", lit "image/jpeg"); (lit "gif", lit "image/gif");
    (lit "zip", lit "application/zip") ].

Definition octet_stream : jsstring := lit "application/octet-stream".

(** Options with an empty list of recipients. *)
Definition options_no_recipient : EmailOptions :=
  mkOptions (OfString (lit "a@example.com")) (Many [])
    None None None (lit "Hi") (Some (lit "hello")) None None None None.

(** The element-wise reading of a list of recipients. *)
Definition resolves_to (x : StringOrUser) (u : User) : Prop :=
  match x with
  | OfString s => u = mkUser None s
  | OfUser u' => u = u'
  end.



(* ================================================================== *)
(** ** Notions used in the further properties *)

Definition not_space (c : N) : bool := negb (is_space c).

Definition not_line_terminator (c : N) : bool := negb (is_line_terminator c).

(** A line in normal form: not empty, and its words separated by single
    spaces with nothing before, after or between them. *)
Definition spaced_line (l : jsstring) : Prop :=
  l <> [] /\ l = join (lit " ") (match_nonspace l).

(** A character of a base64 text: of the alphabet, or the padding. *)
Definition base64_char (c : N) : bool :=
  match b64_index c with Some _ => true | None => N.eqb c pad end.

(** A hexadecimal digit in lower case. *)
Definition hex_char (c : N) : bool :=
  (N.leb 48 c && N.leb c 57) || (N.leb 97 c && N.leb c 102).

(** Creating a key unless it is there. *)
Definition add_key (ks : list jsstring) (k : jsstring) : list jsstring :=
  if existsb (str_eqb k) ks then ks else ks ++ [k].

(** The keys [resolveHeader] writes for a message, in the order of the
    writes. *)
Definition written_keys (e : Email) : list jsstring :=
  [lit "From"; lit "To"]
  ++ (match reply e with Some _ => [lit "Reply-To"] | None => [] end)
  ++ (match cc e with Some _ => [lit "CC"] | None => [] end)
  ++ [lit "Subject"; lit "Date"; lit "Message-ID"].

(** Options with empty strings where addresses are expected. *)
Definition options_empty_to : EmailOptions :=
  mkOptions (OfString (lit "a@example.com")) (OneString [])
    None None None (lit "Hi") (Some (lit "hello")) None None None None.

Definition options_empty_reply : EmailOptions :=
  mkOptions (OfString (lit "a@example.com")) (OneString (lit "b@example.com"))
    (Some (OfString [])) (Some (OneString [])) None
    (lit "Hi") (Some (lit "hello")) None None None None.

(** Options with empty lists of recipients. *)
Definition options_empty_lists : EmailOptions :=
  mkOptions (OfString (lit "a@example.com")) (Many [])
    None (Some (Many [])) None (lit "Hi") (Some (lit "hello")) None None None None.

(** A second message on the headers object of [email0]. *)
Definition email0_other : Email :=
  mkEmail (mkUser None (lit "z@other.example")) (Some [user_b]) None None None
    (lit "Again") (Some (lit "hello again")) None None None 0.

(** A text of white space only. *)
Definition options_blank_text : EmailOptions :=
  mkOptions (OfString (lit "a@example.com")) (OneString (lit "b@example.com"))
    None None None (lit "Hi") (Some (lit "   ")) None None None None.

(** The e-mail address of an element of a list of recipients. *)
Definition email_of (x : StringOrUser) : jsstring :=
  match x with OfString s => s | OfUser u => email u end.

(* ================================================================== *)
(** ** Basic facts on strings *)

Lemma str_eqb_eq (a b : jsstring) : str_eqb a b = true <-> a = b.
Proof.
  revert b; induction a as [|x a IH]; intros [|y b]; simpl;
    try (split; [discriminate | discriminate]); try tauto.
  rewrite andb_true_iff, N.eqb_eq, IH.
  split; [intros [-> ->]; reflexivity | intros H; inversion H; auto].
Qed.

Lemma str_eqb_refl (a : jsstring) : str_eqb a a = true.
Proof. apply str_eqb_eq; reflexivity. Qed.

Lemma str_eqb_neq (a b : jsstring) : str_eqb a b = false <-> a <> b.
Proof.
  rewrite <- str_eqb_eq. destruct (str_eqb a b); split; congruence.
Qed.

Lemma str_eqb_sym (a b : jsstring) : str_eqb a b = str_eqb b a.
Proof.
  destruct (str_eqb a b) eqn:E.
  - apply str_eqb_eq in E; subst; symmetry; apply str_eqb_refl.
  - symmetry; apply str_eqb_neq; apply str_eqb_neq in E; congruence.
Qed.

Lemma nonempty_true (s : jsstring) : nonempty s = true <-> s <> [].
Proof. destruct s; simpl; split; congruence. Qed.

Lemma emit_nonempty (cur : jsstring) : nonempty cur = true -> emit cur = [cur].
Proof. destruct cur; simpl; congruence. Qed.

(** *** Splitting at a separator *)

Lemma split_aux_no_sep (sep : N) (s cur : jsstring) :
  ~ In sep s -> split_aux sep cur s = [cur ++ s].
Proof.
  revert cur; induction s as [|c s IH]; intros cur H; simpl.
  - now rewrite app_nil_r.
  - destruct (N.eqb_spec c sep) as [->|Hne].
    + exfalso; apply H; now left.
    + rewrite IH by (intros Hin; apply H; now right).
      now rewrite <- app_assoc.
Qed.

Lemma pop_cons_nonempty {A : Type} (x : A) (l : list A) :
  l <> [] -> pop (x :: l) = pop l.
Proof. destruct l; [congruence | reflexivity]. Qed.

Lemma split_aux_nonempty (sep : N) (s cur : jsstring) : split_aux sep cur s <> [].
Proof.
  revert cur; induction s as [|c s IH]; intros cur; simpl; [discriminate|].
  destruct (N.eqb c sep); [discriminate | apply IH].
Qed.

Lemma pop_split_aux_last (sep : N) (pre dom cur : jsstring) :
  ~ In sep dom ->
  pop (split_aux sep cur (pre ++ sep :: dom)) = Some dom.
Proof.
  intros Hdom; revert cur; induction pre as [|c pre IH]; intros cur; simpl.
  - rewrite N.eqb_refl, pop_cons_nonempty by apply split_aux_nonempty.
    now rewrite split_aux_no_sep.
  - destruct (N.eqb c sep).
    + rewrite pop_cons_nonempty by apply split_aux_nonempty. apply IH.
    + apply IH.
Qed.

(** [s.split(sep).pop()] is the text after the last separator ... *)
Lemma pop_split_after_last (sep : N) (pre dom : jsstring) :
  ~ In sep dom -> pop (split sep (pre ++ sep :: dom)) = Some dom.
Proof. apply pop_split_aux_last. Qed.

(** ... and the whole string when there is no separator. *)
Lemma pop_split_whole (sep : N) (s : jsstring) :
  ~ In sep s -> pop (split sep s) = Some s.
Proof. intros H; unfold split; now rewrite split_aux_no_sep. Qed.

Lemma pop_split_some (sep : N) (s : jsstring) :
  exists d, pop (split sep s) = Some d.
Proof.
  unfold split. generalize (@nil N) as cur.
  induction s as [|c s IH]; intros cur; simpl; [eauto|].
  destruct (N.eqb c sep).
  - rewrite pop_cons_nonempty by apply split_aux_nonempty. apply IH.
  - apply IH.
Qed.

(** *** Words *)


Lemma match_nonspace_aux_word (w cur : jsstring) :
  Forall (fun c => is_space c = false) w ->
  match_nonspace_aux cur w = emit (cur ++ w).
Proof.
  revert cur; induction w as [|c w IH]; intros cur H; simpl.
  - now rewrite app_nil_r.
  - inversion H as [|? ? Hc Hw]; subst. rewrite Hc, IH by assumption.
    now rewrite <- app_assoc.
Qed.

Lemma match_nonspace_word (w : jsstring) : word w -> match_nonspace w = [w].
Proof.
  intros [Hne Hw]. unfold match_nonspace.
  rewrite match_nonspace_aux_word by assumption. simpl.
  destruct w; [congruence | reflexivity].
Qed.

Lemma match_nonspace_aux_app (a b cur : jsstring) (sp : N) :
  is_space sp = true ->
  match_nonspace_aux cur (a ++ sp :: b) =
  match_nonspace_aux cur a ++ match_nonspace b.
Proof.
  intros Hsp; revert cur; induction a as [|c a IH]; intros cur; simpl.
  - now rewrite Hsp.
  - destruct (is_space c).
    + now rewrite IH, app_assoc.
    + apply IH.
Qed.

Lemma match_nonspace_app (a b : jsstring) (sp : N) :
  is_space sp = true ->
  match_nonspace (a ++ sp :: b) = match_nonspace a ++ match_nonspace b.
Proof. apply match_nonspace_aux_app. Qed.

Lemma match_nonspace_aux_words (s cur : jsstring) :
  Forall (fun c => is_space c = false) cur ->
  Forall word (match_nonspace_aux cur s).
Proof.
  revert cur; induction s as [|c s IH]; intros cur Hcur; simpl.
  - destruct cur; simpl; constructor; [|constructor]. split; [discriminate | assumption].
  - destruct (is_space c) eqn:Hc.
    + apply Forall_app; split; [|apply IH; constructor].
      destruct cur; simpl; constructor; [|constructor].
      split; [discriminate | assumption].
    + apply IH. apply Forall_app; split; [assumption | repeat constructor; assumption].
Qed.

Lemma match_nonspace_words (s : jsstring) : Forall word (match_nonspace s).
Proof. apply match_nonspace_aux_words; constructor. Qed.

Example base64_Hi : toString_base64 (utf8_encode (lit "Hi")) = lit "SGk=".
Proof. reflexivity. Qed.

(* ================================================================== *)
(** ** [wrapText] *)

Lemma chunks_aux_fuel (n : nat) (f1 f2 : nat) (w : jsstring) :
  0 < n -> length w <= f1 -> length w <= f2 ->
  chunks_aux f1 n w = chunks_aux f2 n w.
Proof.
  intros Hn; revert f2 w; induction f1 as [|f1 IH]; intros f2 w H1 H2.
  - destruct w; [|simpl in H1; lia]. destruct f2; reflexivity.
  - destruct w as [|c w]; [destruct f2; reflexivity|].
    destruct f2 as [|f2]; [simpl in H2; lia|].
    cbn [chunks_aux]. f_equal.
    assert (length (skipn n (c :: w)) <= length w).
    { rewrite length_skipn; cbn [length]; lia. }
    cbn [length] in H1, H2. apply IH; lia.
Qed.

Lemma chunks_aux_concat (n fuel : nat) (w : jsstring) :
  0 < n -> length w <= fuel -> concat (chunks_aux fuel n w) = w.
Proof.
  intros Hn; revert w; induction fuel as [|fuel IH]; intros w H.
  - destruct w; [reflexivity | simpl in H; lia].
  - destruct w as [|c w]; [reflexivity|].
    cbn [chunks_aux concat]. rewrite IH.
    + apply firstn_skipn.
    + rewrite length_skipn; cbn [length] in *; lia.
Qed.

Lemma chunks_aux_bound (n fuel : nat) (w : jsstring) :
  Forall (fun l => length l <= n) (chunks_aux fuel n w).
Proof.
  revert w; induction fuel as [|fuel IH]; intros w; [constructor|].
  destruct w as [|c w]; [constructor|].
  cbn [chunks_aux]. constructor; [|apply IH].
  rewrite length_firstn; lia.
Qed.

Lemma Forall_firstn {A : Type} (P : A -> Prop) (k : nat) (l : list A) :
  Forall P l -> Forall P (firstn k l).
Proof.
  intros H. rewrite <- (firstn_skipn k l) in H.
  now apply Forall_app in H.
Qed.

Lemma Forall_skipn {A : Type} (P : A -> Prop) (k : nat) (l : list A) :
  Forall P l -> Forall P (skipn k l).
Proof.
  intros H. rewrite <- (firstn_skipn k l) in H.
  now apply Forall_app in H.
Qed.

Lemma chunks_aux_words (n fuel : nat) (w : jsstring) :
  0 < n -> Forall (fun c => is_space c = false) w ->
  Forall word (chunks_aux fuel n w).
Proof.
  intros Hn; revert w; induction fuel as [|fuel IH]; intros w H; [constructor|].
  destruct w as [|c w]; [constructor|].
  cbn [chunks_aux]. constructor.
  - split; [|now apply Forall_firstn].
    destruct n; [lia | discriminate].
  - apply IH. now apply Forall_skipn.
Qed.

Lemma wrapText_slices_spec (n : nat) (w : jsstring) :
  0 < n ->
  forall fuel i lines,
    length w - i <= fuel ->
    wrapText_slices fuel w i n lines =
    Some (lines ++ chunks_aux fuel n (skipn i w)).
Proof.
  intros Hn; induction fuel as [|fuel IH]; intros i lines H.
  - simpl. destruct (Nat.ltb_spec i (length w)); [lia|].
    now rewrite app_nil_r.
  - cbn [wrapText_slices]. destruct (Nat.ltb_spec i (length w)) as [Hi|Hi].
    + rewrite IH by lia. f_equal. rewrite <- app_assoc. f_equal.
      destruct (skipn i w) as [|c r] eqn:E.
      * apply (f_equal (@length N)) in E. rewrite length_skipn in E.
        simpl in E; lia.
      * cbn [chunks_aux app]. rewrite <- E. unfold slice.
        replace (i + n - i) with n by lia.
        now rewrite skipn_skipn, (Nat.add_comm n i).
    + rewrite skipn_all2 by lia. now rewrite app_nil_r.
Qed.

Lemma wrapText_slices_chunks (n : nat) (w : jsstring) (lines : list jsstring) :
  0 < n ->
  wrapText_slices (length w) w 0 n lines = Some (lines ++ chunks n w).
Proof.
  intros Hn. rewrite wrapText_slices_spec by lia. reflexivity.
Qed.

Lemma pieces_bound (n : nat) (w : jsstring) :
  Forall (fun l => length l <= n) (pieces n w).
Proof.
  unfold pieces. destruct (Nat.ltb_spec n (length w)).
  - apply chunks_aux_bound.
  - repeat constructor; assumption.
Qed.

Lemma pieces_words (n : nat) (w : jsstring) :
  0 < n -> word w -> Forall word (pieces n w).
Proof.
  intros Hn Hw. unfold pieces. destruct (n <? length w).
  - apply chunks_aux_words; [assumption | apply Hw].
  - repeat constructor; apply Hw.
Qed.

Lemma flat_map_words (l : list jsstring) :
  Forall word l -> flat_map match_nonspace l = l.
Proof.
  induction 1 as [|w l Hw _ IH]; [reflexivity|].
  simpl. now rewrite match_nonspace_word, IH.
Qed.

(** The invariant of the outer loop: lines stay within the limit and the
    words of the lines and of the current line are the words read so far. *)
Lemma wrapText_loop_spec (n : nat) :
  0 < n ->
  forall ws lines cur,
    Forall word ws ->
    Forall (fun l => length l <= n) lines ->
    length cur <= n ->
    exists lines' cur',
      wrapText_loop ws lines cur n = Some (lines', cur') /\
      Forall (fun l => length l <= n) lines' /\
      length cur' <= n /\
      flat_map match_nonspace lines' ++ match_nonspace cur' =
      flat_map match_nonspace lines ++ match_nonspace cur ++ flat_map (pieces n) ws.
Proof.
  intros Hn; induction ws as [|w ws IH]; intros lines cur Hws Hlines Hcur.
  - exists lines, cur. simpl. rewrite app_nil_r. auto.
  - inversion Hws as [|? ? Hw Hws']; subst.
    cbn [wrapText_loop flat_map]. unfold pieces at 1.
    destruct (Nat.ltb_spec n (length w)) as [Hlong|Hshort].
    + rewrite wrapText_slices_chunks by assumption.
      set (lines1 := if nonempty cur then lines ++ [cur] else lines).
      assert (H1 : Forall (fun l => length l <= n) lines1).
      { unfold lines1; destruct (nonempty cur); [|assumption].
        apply Forall_app; split; [assumption | repeat constructor; assumption]. }
      assert (H2 : flat_map match_nonspace lines1 =
                   flat_map match_nonspace lines ++ match_nonspace cur).
      { unfold lines1; destruct cur; simpl.
        - now rewrite app_nil_r.
        - rewrite flat_map_app. simpl. now rewrite app_nil_r. }
      destruct (IH (lines1 ++ chunks n w) []) as (l' & c' & E & B1 & B2 & W);
        [assumption | | simpl; lia |].
      { apply Forall_app; split; [assumption | apply chunks_aux_bound]. }
      exists l', c'. repeat split; try assumption.
      rewrite W, flat_map_app, H2.
      rewrite (flat_map_words (chunks n w))
        by (apply chunks_aux_words; [assumption | apply Hw]).
      simpl. now rewrite <- !app_assoc.
    + destruct (Nat.leb_spec
                  (length cur + length w + (if nonempty cur then 1 else 0)) n)
        as [Hfit|Hfull].
      * destruct (IH lines (cur ++ (if nonempty cur then lit " " else []) ++ w))
          as (l' & c' & E & B1 & B2 & W); [assumption | assumption | |].
        { rewrite !length_app. destruct cur; simpl in *; lia. }
        exists l', c'. repeat split; try assumption.
        rewrite W. f_equal. rewrite (app_assoc (match_nonspace cur)). f_equal.
        destruct cur as [|c cur]; simpl nonempty; cbv iota.
        -- simpl. now rewrite match_nonspace_word.
        -- change (lit " " ++ w) with (32%N :: w).
           rewrite match_nonspace_app by reflexivity.
           now rewrite (match_nonspace_word w Hw).
      * destruct (IH (lines ++ [cur]) w) as (l' & c' & E & B1 & B2 & W);
          [assumption | | assumption |].
        { apply Forall_app; split; [assumption | repeat constructor; assumption]. }
        exists l', c'. repeat split; try assumption.
        rewrite W, flat_map_app. simpl. rewrite app_nil_r.
        rewrite (match_nonspace_word w Hw).
        now rewrite <- !app_assoc.
Qed.

(** [wrapText] returns for a positive limit; its lines are within the
    limit and carry the words of the text, long words in pieces. *)
Lemma wrapText_spec (text : jsstring) (n : nat) :
  0 < n ->
  exists lines,
    wrapText text n = Some lines /\
    Forall (fun l => length l <= n) lines /\
    flat_map match_nonspace lines = flat_map (pieces n) (match_nonspace text).
Proof.
  intros Hn. unfold wrapText.
  destruct (wrapText_loop_spec n Hn (match_nonspace text) [] [])
    as (l' & c' & E & B1 & B2 & W);
    [apply match_nonspace_words | constructor | simpl; lia |].
  rewrite E. eexists; split; [reflexivity|]. split.
  - destruct (nonempty c'); [|assumption].
    apply Forall_app; split; [assumption | repeat constructor; assumption].
  - simpl in W. rewrite <- W. destruct c'; simpl.
    + now rewrite app_nil_r.
    + rewrite flat_map_app. simpl. now rewrite app_nil_r.
Qed.

(* ================================================================== *)
(** ** Base64 *)

Ltac div_lia := zify; Z.to_euclidean_division_equations; lia.

Lemma to_N_lt (b : byte) : (Byte.to_N b < 256)%N.
Proof. pose proof (Byte.to_N_bounded b). lia. Qed.

Lemma byte_of_to_N (b : byte) : byte_of_N (Byte.to_N b) = b.
Proof.
  unfold byte_of_N. rewrite N.mod_small by apply to_N_lt.
  now rewrite Byte.of_to_N.
Qed.

Lemma b64_index_char (n : N) : (n < 64)%N -> b64_index (b64_char n) = Some n.
Proof.
  intros H. unfold b64_char, b64_index.
  repeat match goal with
         | |- context [N.ltb ?a ?b] => destruct (N.ltb_spec a b)
         | |- context [N.leb ?a ?b] => destruct (N.leb_spec a b)
         | |- context [N.eqb ?a ?b] => destruct (N.eqb_spec a b)
         | _ => progress cbn [andb]
         end; try (f_equal; lia); try lia.
Qed.

Lemma b64_char_range (n : N) : (43 <= b64_char n <= 122)%N.
Proof.
  unfold b64_char.
  repeat match goal with
         | |- context [N.ltb ?a ?b] => destruct (N.ltb_spec a b)
         | |- context [N.eqb ?a ?b] => destruct (N.eqb_spec a b)
         end; lia.
Qed.

Lemma b64_char_not_pad (n : N) : (n < 64)%N -> N.eqb (b64_char n) pad = false.
Proof.
  intros H. apply N.eqb_neq. unfold b64_char, pad.
  repeat match goal with
         | |- context [N.ltb ?a ?b] => destruct (N.ltb_spec a b)
         | |- context [N.eqb ?a ?b] => destruct (N.eqb_spec a b)
         end; lia.
Qed.

(** The sextets of a group of three octets, and the way back. *)
Lemma sextet1_lt (x : N) : (x < 256 -> x / 4 < 64)%N.
Proof. intros; div_lia. Qed.

Lemma sextet2_lt (x y : N) : (y < 256 -> (x mod 4) * 16 + y / 16 < 64)%N.
Proof. intros; div_lia. Qed.

Lemma sextet2_pad_lt (x : N) : ((x mod 4) * 16 < 64)%N.
Proof. div_lia. Qed.

Lemma sextet3_lt (y z : N) : (z < 256 -> (y mod 16) * 4 + z / 64 < 64)%N.
Proof. intros; div_lia. Qed.

Lemma sextet3_pad_lt (y : N) : ((y mod 16) * 4 < 64)%N.
Proof. div_lia. Qed.

Lemma sextet4_lt (z : N) : (z mod 64 < 64)%N.
Proof. div_lia. Qed.

Lemma octet1 (x y : N) :
  (y < 256 -> x / 4 * 4 + ((x mod 4) * 16 + y / 16) / 16 = x)%N.
Proof. intros; div_lia. Qed.

Lemma octet1_pad (x : N) : (x / 4 * 4 + ((x mod 4) * 16) / 16 = x)%N.
Proof. div_lia. Qed.

Lemma octet2 (x y z : N) :
  (y < 256 -> z < 256 ->
   (((x mod 4) * 16 + y / 16) mod 16) * 16 + ((y mod 16) * 4 + z / 64) / 4 = y)%N.
Proof. intros; div_lia. Qed.

Lemma octet2_pad (x y : N) :
  (y < 256 ->
   (((x mod 4) * 16 + y / 16) mod 16) * 16 + ((y mod 16) * 4) / 4 = y)%N.
Proof. intros; div_lia. Qed.

Lemma octet3 (y z : N) :
  (z < 256 -> (((y mod 16) * 4 + z / 64) mod 4) * 64 + z mod 64 = z)%N.
Proof. intros; div_lia. Qed.

Ltac sextet :=
  first [ apply sextet1_lt; assumption | apply sextet2_lt; assumption
        | apply sextet2_pad_lt | apply sextet3_lt; assumption
        | apply sextet3_pad_lt | apply sextet4_lt ].

Lemma base64_decode_group (a b c : byte) (rest : jsstring) :
  base64_decode
    ([b64_char (Byte.to_N a / 4);
      b64_char ((Byte.to_N a mod 4) * 16 + Byte.to_N b / 16);
      b64_char ((Byte.to_N b mod 16) * 4 + Byte.to_N c / 64);
      b64_char (Byte.to_N c mod 64)]%N ++ rest) =
  match base64_decode rest with
  | Some bs => Some (a :: b :: c :: bs)
  | None => None
  end.
Proof.
  pose proof (to_N_lt a) as Ha. pose proof (to_N_lt b) as Hb.
  pose proof (to_N_lt c) as Hc.
  cbn [app base64_decode].
  rewrite !b64_index_char by sextet.
  rewrite !b64_char_not_pad by sextet.
  cbn [andb].
  rewrite octet1, octet2, octet3 by assumption.
  now rewrite !byte_of_to_N.
Qed.

(** Decoding inverts [toString('base64')]. *)
Lemma base64_roundtrip_le (n : nat) :
  forall bs, length bs <= n -> base64_decode (toString_base64 bs) = Some bs.
Proof.
  induction n as [n IH] using lt_wf_ind. intros bs Hlen.
  destruct bs as [|a [|b [|c rest]]].
  - reflexivity.
  - pose proof (to_N_lt a) as Ha.
    cbn [toString_base64 base64_decode].
    rewrite !b64_index_char by sextet.
    rewrite N.eqb_refl. cbn [andb].
    rewrite octet1_pad. now rewrite byte_of_to_N.
  - pose proof (to_N_lt a) as Ha. pose proof (to_N_lt b) as Hb.
    cbn [toString_base64 base64_decode].
    rewrite !b64_index_char by sextet.
    rewrite b64_char_not_pad by sextet. rewrite N.eqb_refl.
    cbn [andb].
    rewrite octet1, octet2_pad by assumption.
    now rewrite !byte_of_to_N.
  - change (toString_base64 (a :: b :: c :: rest))
      with ([b64_char (Byte.to_N a / 4);
             b64_char ((Byte.to_N a mod 4) * 16 + Byte.to_N b / 16);
             b64_char ((Byte.to_N b mod 16) * 4 + Byte.to_N c / 64);
             b64_char (Byte.to_N c mod 64)]%N ++ toString_base64 rest).
    rewrite base64_decode_group.
    rewrite (IH (length rest)) by (cbn [length] in Hlen; lia).
    reflexivity.
Qed.

Lemma base64_roundtrip (bs : list byte) :
  base64_decode (toString_base64 bs) = Some bs.
Proof. apply (base64_roundtrip_le (length bs)); lia. Qed.

(** The characters of a base64 text: the alphabet and the padding. *)
Lemma toString_base64_range_le (n : nat) :
  forall bs, length bs <= n ->
    Forall (fun c => (43 <= c <= 122)%N) (toString_base64 bs).
Proof.
  induction n as [n IH] using lt_wf_ind. intros bs Hlen.
  destruct bs as [|a [|b [|c rest]]]; cbn [toString_base64].
  - constructor.
  - repeat constructor; try apply b64_char_range; unfold pad; lia.
  - repeat constructor; try apply b64_char_range; unfold pad; lia.
  - repeat (constructor; [apply b64_char_range|]).
    apply (IH (length rest)); cbn [length] in Hlen; lia.
Qed.

Lemma toString_base64_range (bs : list byte) :
  Forall (fun c => (43 <= c <= 122)%N) (toString_base64 bs).
Proof. apply (toString_base64_range_le (length bs)); lia. Qed.

Lemma printable_not_space (c : N) : (33 <= c <= 126)%N -> is_space c = false.
Proof.
  intros H. unfold is_space. cbn [existsb].
  repeat match goal with
         | |- context [N.eqb ?a ?b] => destruct (N.eqb_spec a b); [lia|]
         end.
  cbn [orb]. destruct (N.leb_spec 8192 c); [lia | reflexivity].
Qed.

Lemma printable_not_line_break (c : N) :
  (33 <= c <= 126)%N -> negb (N.eqb c 13 || N.eqb c 10) = true.
Proof.
  intros H. destruct (N.eqb_spec c 13); [lia|].
  destruct (N.eqb_spec c 10); [lia | reflexivity].
Qed.

Lemma wrapText_empty (n : nat) : wrapText [] n = Some [].
Proof. reflexivity. Qed.

Lemma wrapText_one_word (w : jsstring) (n : nat) :
  0 < n -> word w -> wrapText w n = Some (pieces n w).
Proof.
  intros Hn Hw. unfold wrapText, pieces.
  rewrite (match_nonspace_word w Hw). cbn [wrapText_loop].
  destruct (Nat.ltb_spec n (length w)) as [Hlong|Hshort].
  - rewrite wrapText_slices_chunks by assumption. reflexivity.
  - cbn [nonempty length app Nat.add].
    rewrite Nat.add_0_r. destruct (Nat.leb_spec (length w) n); [|lia].
    destruct w; [destruct Hw; congruence | reflexivity].
Qed.

Lemma concat_pieces (n : nat) (w : jsstring) : 0 < n -> concat (pieces n w) = w.
Proof.
  intros Hn. unfold pieces. destruct (n <? length w).
  - apply chunks_aux_concat; [assumption | lia].
  - simpl. apply app_nil_r.
Qed.

Lemma chunks_aux_Forall (P : N -> Prop) (n fuel : nat) (w : jsstring) :
  Forall P w -> Forall (Forall P) (chunks_aux fuel n w).
Proof.
  revert w; induction fuel as [|fuel IH]; intros w H; [constructor|].
  destruct w as [|c w]; [constructor|].
  cbn [chunks_aux]. constructor.
  - now apply Forall_firstn.
  - apply IH. now apply Forall_skipn.
Qed.

Lemma pieces_Forall (P : N -> Prop) (n : nat) (w : jsstring) :
  Forall P w -> Forall (Forall P) (pieces n w).
Proof.
  intros H. unfold pieces. destruct (n <? length w).
  - now apply chunks_aux_Forall.
  - repeat constructor; assumption.
Qed.

Lemma remove_line_breaks_printable (s : jsstring) :
  Forall (fun c => (33 <= c <= 126)%N) s -> remove_line_breaks s = s.
Proof.
  induction 1 as [|c s Hc _ IH]; [reflexivity|].
  unfold remove_line_breaks in *. cbn [filter].
  now rewrite (printable_not_line_break c Hc), IH.
Qed.

Lemma remove_line_breaks_app (a b : jsstring) :
  remove_line_breaks (a ++ b) = remove_line_breaks a ++ remove_line_breaks b.
Proof. apply filter_app. Qed.

Lemma remove_line_breaks_join (lines : list jsstring) :
  Forall (Forall (fun c => (33 <= c <= 126)%N)) lines ->
  remove_line_breaks (join CRLF lines) = concat lines.
Proof.
  induction 1 as [|l lines Hl _ IH]; [reflexivity|].
  destruct lines as [|l' lines].
  - simpl. rewrite app_nil_r. now apply remove_line_breaks_printable.
  - change (join CRLF (l :: l' :: lines))
      with (l ++ CRLF ++ join CRLF (l' :: lines)).
    rewrite !remove_line_breaks_app, IH.
    rewrite (remove_line_breaks_printable l Hl). reflexivity.
Qed.

Lemma base64_printable (bs : list byte) :
  Forall (fun c => (33 <= c <= 126)%N) (toString_base64 bs).
Proof.
  eapply Forall_impl; [|apply toString_base64_range].
  simpl; intros; lia.
Qed.

(** Wrapping a base64 text and taking the line breaks out gives the text
    back, whatever the positive limit. *)
Lemma wrapText_base64 (bs : list byte) (n : nat) :
  0 < n ->
  exists lines,
    wrapText (toString_base64 bs) n = Some lines /\
    Forall (fun l => length l <= n) lines /\
    remove_line_breaks (join CRLF lines) = toString_base64 bs.
Proof.
  intros Hn. pose proof (base64_printable bs) as Hp.
  destruct (toString_base64 bs) as [|c s] eqn:E.
  - exists []. repeat split; constructor.
  - assert (Hw : word (c :: s)).
    { split; [discriminate|]. eapply Forall_impl; [|exact Hp].
      apply printable_not_space. }
    exists (pieces n (c :: s)). split; [now apply wrapText_one_word|].
    split; [apply pieces_bound|].
    rewrite remove_line_breaks_join by now apply pieces_Forall.
    now apply concat_pieces.
Qed.

(** C5 - [wrapText] with a positive limit returns lines no longer than the
    limit whose words, read in order, are the words of the input, a word
    longer than the limit appearing as its fixed-size pieces (and so the
    very word sequence when no word is too long); this holds in particular
    at 998 for the plain-text body; and the base64 text of an HTML body
    wrapped at 76, with the line breaks removed, decodes to the UTF-8
    bytes of the HTML. *)
Theorem wrapText_round_trip (text html : jsstring) (limit : nat) :
  0 < limit ->
  (exists lines,
      wrapText text limit = Some lines /\
      Forall (fun l => length l <= limit) lines /\
      flat_map match_nonspace lines =
        flat_map (pieces limit) (match_nonspace text) /\
      (Forall (fun w => length w <= limit) (match_nonspace text) ->
       flat_map match_nonspace lines = match_nonspace text)) /\
  (exists lines,
      wrapText text 998 = Some lines /\
      Forall (fun l => length l <= 998) lines /\
      flat_map match_nonspace lines =
        flat_map (pieces 998) (match_nonspace text)) /\
  (exists lines,
      wrapText (toString_base64 (utf8_encode html)) 76 = Some lines /\
      Forall (fun l => length l <= 76) lines /\
      base64_decode (remove_line_breaks (join CRLF lines)) =
        Some (utf8_encode html)).
Proof.
  intros Hlimit. split; [|split].
  - destruct (wrapText_spec text limit Hlimit) as (lines & E & B & W).
    exists lines. repeat split; try assumption.
    intros Hshort. rewrite W. clear E B W.
    induction Hshort as [|w ws Hw _ IH]; [reflexivity|].
    cbn [flat_map]. rewrite IH. unfold pieces.
    destruct (Nat.ltb_spec limit (length w)); [lia | reflexivity].
  - apply wrapText_spec; lia.
  - destruct (wrapText_base64 (utf8_encode html) 76) as (lines & E & B & R);
      [lia|].
    exists lines. repeat split; try assumption.
    rewrite R. apply base64_roundtrip.
Qed.

Lemma wrapText_round_trip_witness :
  0 < 5 /\
  exists lines,
    wrapText (lit "to be or not to be, unquestionably") 5 = Some lines /\
    Forall (fun l => length l <= 5) lines /\
    flat_map match_nonspace lines =
      flat_map (pieces 5) (match_nonspace (lit "to be or not to be, unquestionably")).
Proof.
  split; [lia|].
  destruct (wrapText_round_trip (lit "to be or not to be, unquestionably")
              (lit "<p>hi</p>") 5 ltac:(lia)) as [(lines & E & B & W & _) _].
  exists lines. auto.
Defined.

(* ================================================================== *)
(** ** The headers object *)

Lemma hget_hset_same (k v : jsstring) (h : Headers) :
  hget k (hset k v h) = Some v.
Proof.
  induction h as [|[k' v'] h IH]; simpl.
  - now rewrite str_eqb_refl.
  - destruct (str_eqb k k') eqn:E; simpl; rewrite E; [reflexivity | exact IH].
Qed.

Lemma hget_hset_other (k k' v : jsstring) (h : Headers) :
  k <> k' -> hget k' (hset k v h) = hget k' h.
Proof.
  intros Hne. induction h as [|[k0 v0] h IH]; simpl.
  - apply str_eqb_neq in Hne. now rewrite str_eqb_sym, Hne.
  - destruct (str_eqb k k0) eqn:E; simpl.
    + apply str_eqb_eq in E; subst k0.
      destruct (str_eqb k' k) eqn:E'; [|reflexivity].
      apply str_eqb_eq in E'; congruence.
    + now rewrite IH.
Qed.

Lemma hset_keys (k v : jsstring) (h : Headers) :
  map fst (hset k v h) =
  if existsb (str_eqb k) (map fst h) then map fst h else map fst h ++ [k].
Proof.
  induction h as [|[k' v'] h IH]; simpl; [reflexivity|].
  destruct (str_eqb k k'); simpl; [reflexivity|].
  rewrite IH. now destruct (existsb (str_eqb k) (map fst h)).
Qed.


Lemma hget_none_notin (k : jsstring) (h : Headers) :
  hget k h = None -> ~ In k (map fst h).
Proof.
  induction h as [|[k' v'] h IH]; simpl; [tauto|].
  destruct (str_eqb k k') eqn:E; [discriminate|].
  apply str_eqb_neq in E. intros H [Heq|Hin]; [congruence | now apply IH].
Qed.



Lemma insert_index_perm (i : N) (p : jsstring * jsstring)
    (l : list (N * (jsstring * jsstring))) :
  Permutation (map snd (insert_index i p l)) (p :: map snd l).
Proof.
  induction l as [|[j q] l IH]; simpl; [reflexivity|].
  destruct (N.leb i j); simpl; [reflexivity|].
  rewrite IH. apply perm_swap.
Qed.

(** [Object.entries] lists every own property once. *)
Lemma entries_perm (h : Headers) : Permutation (entries h) h.
Proof.
  unfold entries. induction h as [|p h IH]; simpl; [reflexivity|].
  unfold named_key at 1. destruct (array_index (fst p)).
  - rewrite insert_index_perm. simpl. now apply perm_skip.
  - rewrite <- Permutation_middle. now apply perm_skip.
Qed.




Lemma in_entries (p : jsstring * jsstring) (h : Headers) :
  In p (entries h) <-> In p h.
Proof.
  split; apply Permutation_in; [|symmetry]; apply entries_perm.
Qed.

Lemma hget_in (k v : jsstring) (h : Headers) : hget k h = Some v -> In (k, v) h.
Proof.
  induction h as [|[k' v'] h IH]; simpl; [discriminate|].
  destruct (str_eqb k k') eqn:E.
  - apply str_eqb_eq in E; subst. intros H; inversion H; now left.
  - intros H; right; now apply IH.
Qed.

(* ================================================================== *)
(** ** The store *)

Lemma deref_set_same (st : Store) (r : ref) (o : Headers) :
  deref (store_set st r o) r = o.
Proof.
  unfold deref. revert st; induction r as [|r IH]; intros [|x st];
    cbn [store_set nth]; auto.
Qed.

Lemma deref_set_other (st : Store) (r r' : ref) (o : Headers) :
  r <> r' -> deref (store_set st r o) r' = deref st r'.
Proof.
  unfold deref. revert st r'; induction r as [|r IH]; intros [|x st] [|r'] H;
    cbn [store_set nth]; try congruence.
  - now destruct r'.
  - rewrite IH by congruence. now destruct r'.
  - apply IH; congruence.
Qed.

Lemma store_set_set (st : Store) (r : ref) (a b : Headers) :
  store_set (store_set st r a) r b = store_set st r b.
Proof.
  revert st; induction r as [|r IH]; intros [|x st]; cbn [store_set];
    try reflexivity; now rewrite IH.
Qed.

(* ================================================================== *)
(** ** Running the methods *)

Ltac keys_differ := let H := fresh in intro H; vm_compute in H; discriminate H.

Ltac other_key := rewrite hget_hset_other by keys_differ.

(** The steps of [resolveHeader] before the last one leave the
    [Message-ID] property alone. *)
Lemma message_id_before (w : World) (e : Email) (users : list User)
    (h0 : Headers) :
  let h := hset (lit "From") (format_user (from e)) h0 in
  let h := hset (lit "To") (join (lit ", ") (map format_user users)) h in
  let h := match reply e with
           | Some r => hset (lit "Reply-To") (format_user r) h
           | None => h
           end in
  let h := match cc e with
           | Some l => hset (lit "CC") (join (lit ", ") (map format_user l)) h
           | None => h
           end in
  let h := hset (lit "Subject") (subject_word e) h in
  let h := hset (lit "Date") (clock w (clock_reads w)) h in
  hget (lit "Message-ID") h = hget (lit "Message-ID") h0.
Proof.
  cbv zeta. do 2 other_key.
  destruct (cc e); [other_key|]; (destruct (reply e); [other_key|]);
    now do 2 other_key.
Qed.

Ltac run_fields :=
  cbn [this world store headers headers_of to reply cc bcc from subject
       clock clock_reads uuid_source uuid_used random_source random_used] in *.

Lemma resolveHeader_run (w : World) (st : Store) (e : Email) (users : list User) :
  to e = Some users ->
  resolveHeader (mkState w st e) =
  (Ok tt,
   mkState (resolved_world w (deref st (headers e)))
     (store_set st (headers e)
        (resolved_headers w e users (deref st (headers e))))
     e).
Proof.
  intros Hto.
  pose proof (message_id_before w e users (deref st (headers e))) as Hid.
  cbv zeta in Hid.
  destruct e as [efrom eto ereply ecc ebcc esubject etext ehtml edsn eatt r].
  cbn [to] in Hto. subst eto.
  unfold resolveHeader, resolveFrom, resolveTo, resolveReply, resolveCC,
    resolveBCC, resolveSubject, resolved_headers, resolved_world, generated_id,
    subject_word in *.
  unfold bind, get_this, get_header, set_header, ret, now_toUTCString, randomUUID.
  run_fields.
  destruct ereply as [rp|], ecc as [l|], ebcc as [b|];
    run_fields;
    repeat (unfold headers_of; run_fields;
            rewrite ?deref_set_same, ?store_set_set);
    rewrite Hid;
    (destruct (hget (lit "Message-ID") (deref st r)) as [[|c id]|];
     cbn [truthy nonempty interp or_else]; run_fields;
     repeat (unfold headers_of; run_fields;
             rewrite ?deref_set_same, ?store_set_set);
     reflexivity).
Qed.

Lemma attachment_part_run (mixed : jsstring) (a : Attachment) (acc : jsstring)
    (w : World) (st : Store) (e : Email) :
  attachment_part mixed a acc (mkState w st e) =
  (Ok (acc ++ attachment_block mixed a (clock w (clock_reads w))),
   mkState (mkWorld (random_source w) (random_used w) (uuid_source w)
              (uuid_used w) (clock w) (S (clock_reads w))) st e).
Proof.
  unfold attachment_part, attachment_block, attachment_body, attachment_type,
    delimiter, bind, now_toUTCString, ret.
  cbn [world this store]. cbv zeta. f_equal. f_equal.
  destruct (match_dot 72 (content a)); repeat rewrite <- app_assoc; reflexivity.
Qed.

Lemma attachment_loop_run (mixed : jsstring) (l : list Attachment) :
  forall (acc : jsstring) (w : World) (st : Store) (e : Email),
    attachment_loop mixed l acc (mkState w st e) =
    (Ok (acc ++ concat (attachment_blocks mixed (clock w) (clock_reads w) l)),
     mkState (mkWorld (random_source w) (random_used w) (uuid_source w)
                (uuid_used w) (clock w) (length l + clock_reads w)) st e).
Proof.
  induction l as [|a l IH]; intros acc w st e.
  - destruct w. cbn. now rewrite app_nil_r.
  - cbn [attachment_loop]. unfold bind at 1. rewrite attachment_part_run.
    rewrite IH. cbn [clock clock_reads random_source random_used uuid_source
                     uuid_used attachment_blocks concat length].
    rewrite <- app_assoc, Nat.add_succ_r. reflexivity.
Qed.

Lemma generateSafeBoundary_run (prefix : jsstring) (w : World) (st : Store)
    (e : Email) :
  generateSafeBoundary prefix (mkState w st e) =
  (Ok (boundary_at prefix w (random_used w)),
   mkState (mkWorld (random_source w) (random_used w + 28) (uuid_source w)
              (uuid_used w) (clock w) (clock_reads w)) st e).
Proof. reflexivity. Qed.

Lemma wrapText_lines (text : jsstring) (n : nat) :
  0 < n -> wrapText text n = Some (lines_of (wrapText text n)).
Proof.
  intros Hn. destruct (wrapText_spec text n Hn) as (lines & E & _).
  now rewrite E.
Qed.

(** [getEmailData] on a message with recipients: it returns the payload
    and leaves the resolved headers in the headers object. *)
Lemma getEmailData_run (w : World) (st : Store) (e : Email) (users : list User) :
  to e = Some users ->
  run getEmailData w st e =
  (Ok (payload w e users (deref st (headers e))), final_state w st e users).
Proof.
  intros Hto. unfold run, getEmailData.
  unfold bind at 1. rewrite (resolveHeader_run w st e users Hto).
  unfold bind at 1. unfold get_this at 1. cbn [this].
  unfold bind at 1. unfold header_entries at 1, headers_of.
  cbn [this store]. rewrite deref_set_same.
  unfold bind at 1. rewrite generateSafeBoundary_run.
  unfold bind at 1. rewrite generateSafeBoundary_run.
  cbv zeta.
  cbn [resolved_world random_source random_used uuid_source uuid_used clock
       clock_reads text html attachments headers].
  unfold payload, alternative_block, alternative_parts, header_block,
    final_state, final_world, attachment_list, close_delimiter, delimiter.
  cbv zeta.
  set (h0 := deref st (headers e)).
  set (mixed := boundary_at (lit "mixed_") w (random_used w)).
  set (alt := boundary_at (lit "alternative_") w (random_used w + 28)).
  set (hs := map header_line (entries (resolved_headers w e users h0))).
  unfold bind, or_range_error, ret.
  destruct (truthy (text e));
    [rewrite (wrapText_lines (interp (text e)) 998) by lia|];
    (destruct (truthy (html e));
     [rewrite (wrapText_lines
                 (toString_base64 (utf8_encode (interp (html e)))) 76) by lia|]);
    (destruct (attachments e) as [l|];
     [rewrite attachment_loop_run|]);
    cbn [random_source random_used uuid_source uuid_used clock clock_reads
         length Nat.add concat attachment_blocks text_part html_part app];
    unfold text_part, html_part, delimiter;
    repeat rewrite <- app_assoc; repeat rewrite app_nil_r; reflexivity.
Qed.

(* ================================================================== *)
(** ** The composed payload *)

Lemma constructor_options0 : constructor options0 [] = (Ok email0, store0).
Proof. reflexivity. Qed.

Lemma constructor_options1 : constructor options1 store1 = (Ok email1, store1).
Proof. reflexivity. Qed.



Lemma resolved_from (w : World) (e : Email) (users : list User) (h0 : Headers) :
  hget (lit "From") (resolved_headers w e users h0) = Some (format_user (from e)).
Proof.
  unfold resolved_headers. cbv zeta. do 3 other_key.
  destruct (cc e); [other_key|]; (destruct (reply e); [other_key|]);
    other_key; apply hget_hset_same.
Qed.

Lemma resolved_to (w : World) (e : Email) (users : list User) (h0 : Headers) :
  hget (lit "To") (resolved_headers w e users h0) =
  Some (join (lit ", ") (map format_user users)).
Proof.
  unfold resolved_headers. cbv zeta. do 3 other_key.
  destruct (cc e); [other_key|]; (destruct (reply e); [other_key|]);
    apply hget_hset_same.
Qed.

Lemma resolved_subject (w : World) (e : Email) (users : list User) (h0 : Headers) :
  hget (lit "Subject") (resolved_headers w e users h0) = Some (subject_word e).
Proof.
  unfold resolved_headers. cbv zeta. do 2 other_key. apply hget_hset_same.
Qed.

Lemma resolved_date (w : World) (e : Email) (users : list User) (h0 : Headers) :
  hget (lit "Date") (resolved_headers w e users h0) =
  Some (clock w (clock_reads w)).
Proof.
  unfold resolved_headers. cbv zeta. other_key. apply hget_hset_same.
Qed.

Lemma resolved_message_id (w : World) (e : Email) (users : list User)
    (h0 : Headers) :
  hget (lit "Message-ID") (resolved_headers w e users h0) =
  Some (or_else (hget (lit "Message-ID") h0) (generated_id w e)).
Proof.
  unfold resolved_headers. cbv zeta. rewrite hget_hset_same.
  pose proof (message_id_before w e users h0) as H. cbv zeta in H.
  unfold subject_word in *. now rewrite H.
Qed.

(** The headers object of the message after [getEmailData]. *)
Lemma headers_of_final (w : World) (st : Store) (e : Email) (users : list User) :
  headers_of (final_state w st e users) =
  resolved_headers w e users (deref st (headers e)).
Proof. unfold headers_of, final_state. cbn [store this]. apply deref_set_same. Qed.









(* ================================================================== *)
(** ** The subject *)

(** C9 - [resolveSubject] always writes the encoded word as [Subject];
    for every message with recipients and every subject, the headers
    object after [getEmailData] has [Subject] equal to the encoded word
    [=?utf-8?b?<base64 of the UTF-8 subject>?=], whatever the subject holds,
    and the header block of the payload has that line; for the subject
    [Hi] the line is [Subject: =?utf-8?b?SGk=?=]. *)
Theorem subject_always_encoded (w : World) (st : Store) (e : Email)
    (users : list User) :
  to e = Some users ->
  (forall s, exists s',
     resolveSubject s = (Ok tt, s') /\
     hget (lit "Subject") (headers_of s') =
       Some (lit "=?utf-8?b?"
             ++ toString_base64 (utf8_encode (subject (this s))) ++ lit "?=")) /\
  exists (p : jsstring) (s' : State),
    run getEmailData w st e = (Ok p, s') /\
    p = payload w e users (deref st (headers e)) /\
    hget (lit "Subject") (headers_of s') =
      Some (lit "=?utf-8?b?" ++ toString_base64 (utf8_encode (subject e))
            ++ lit "?=") /\
    In (lit "Subject: " ++ lit "=?utf-8?b?"
        ++ toString_base64 (utf8_encode (subject e)) ++ lit "?=")
       (map header_line (entries (headers_of s'))) /\
    (subject e = lit "Hi" ->
     In (lit "Subject: =?utf-8?b?SGk=?=")
        (map header_line (entries (headers_of s')))).
Proof.
  intros Hto. split.
  { intros s. eexists. split; [reflexivity|].
    unfold headers_of. cbn [this store]. rewrite deref_set_same.
    apply hget_hset_same. }
  exists (payload w e users (deref st (headers e))), (final_state w st e users).
  rewrite headers_of_final.
  assert (Hin : In (lit "Subject: " ++ lit "=?utf-8?b?"
                    ++ toString_base64 (utf8_encode (subject e)) ++ lit "?=")
                   (map header_line
                      (entries (resolved_headers w e users (deref st (headers e)))))).
  { apply in_map_iff. exists (lit "Subject", subject_word e).
    split; [reflexivity|]. apply in_entries, hget_in, resolved_subject. }
  split; [now apply getEmailData_run|].
  split; [reflexivity|].
  split; [apply resolved_subject|].
  split; [exact Hin|].
  intros Hsubject. rewrite Hsubject in Hin. exact Hin.
Qed.

Lemma subject_always_encoded_witness :
  exists (p : jsstring) (s' : State),
    run getEmailData world0 store0 email0 = (Ok p, s') /\
    In (lit "Subject: =?utf-8?b?SGk=?=")
       (map header_line (entries (headers_of s'))).
Proof.
  destruct (subject_always_encoded world0 store0 email0 [user_b] eq_refl)
    as (_ & p & s' & Hrun & _ & _ & _ & Hhi).
  exists p, s'. split; [exact Hrun | apply Hhi; reflexivity].
Defined.

(* ================================================================== *)
(** ** Boundaries *)

Lemma replace_unsafe_safe (s : jsstring) :
  Forall (fun c => unsafe_char c = false) (replace_unsafe s).
Proof.
  unfold replace_unsafe. apply Forall_map, Forall_forall. intros c _.
  destruct (unsafe_char c) eqn:E; [reflexivity | exact E].
Qed.

Lemma mixed_alternative_differ (x y : jsstring) :
  replace_unsafe (lit "mixed_" ++ x) <> replace_unsafe (lit "alternative_" ++ y).
Proof. intros H. vm_compute in H. discriminate H. Qed.

(** C6 - The two boundaries that [getEmailData] generates in one
    composition, with the prefixes [mixed_] and [alternative_], are
    different strings whatever the random bytes are (also when the two
    draws are the same bytes), and neither holds a character of the class
    replaced by [generateSafeBoundary]; they are the boundaries of the
    mixed envelope and of the alternative block of the payload. *)
Theorem boundaries_distinct_and_safe (s : State) :
  exists (mixed alt : jsstring) (s1 s2 : State),
    generateSafeBoundary (lit "mixed_") s = (Ok mixed, s1) /\
    generateSafeBoundary (lit "alternative_") s1 = (Ok alt, s2) /\
    mixed <> alt /\
    Forall (fun c => unsafe_char c = false) mixed /\
    Forall (fun c => unsafe_char c = false) alt /\
    (forall c, In c (lit "<>@,;:\/[]?= ") \/ In c DQ -> ~ In c mixed /\ ~ In c alt) /\
    (forall bytes : list byte,
       replace_unsafe (lit "mixed_" ++ toString_hex bytes) <>
       replace_unsafe (lit "alternative_" ++ toString_hex bytes)) /\
    (forall users, to (this s) = Some users ->
       exists (p : jsstring) (s' : State),
         getEmailData s = (Ok p, s') /\
         p = header_block (entries (headers_of s')) mixed ++ CRLF ++ CRLF
             ++ delimiter mixed
             ++ alternative_block alt (alternative_parts alt (this s))
             ++ concat (attachment_blocks mixed (clock (world s))
                          (S (clock_reads (world s))) (attachment_list (this s)))
             ++ close_delimiter mixed ++ lit "." ++ CRLF).
Proof.
  destruct s as [w st e].
  exists (boundary_at (lit "mixed_") w (random_used w)),
    (boundary_at (lit "alternative_") w (random_used w + 28)).
  eexists _, _.
  split; [apply generateSafeBoundary_run|].
  split; [apply generateSafeBoundary_run|].
  split; [apply mixed_alternative_differ|].
  split; [apply replace_unsafe_safe|].
  split; [apply replace_unsafe_safe|].
  split; [|split; [intros; apply mixed_alternative_differ|]].
  2:{ cbn [this world]. intros users Hto.
      exists (payload w e users (deref st (headers e))), (final_state w st e users).
      split; [now apply (getEmailData_run w st e users)|].
      now rewrite headers_of_final. }
  intros c Hc.
  assert (Hu : unsafe_char c = true).
  { destruct Hc as [Hc|Hc]; vm_compute in Hc;
      repeat (destruct Hc as [Hc|Hc]; [subst c; reflexivity|]); destruct Hc. }
  pose proof (replace_unsafe_safe
                (lit "mixed_" ++ toString_hex (map (random_source w) (seq (random_used w) 28)))) as H1.
  pose proof (replace_unsafe_safe
                (lit "alternative_" ++ toString_hex (map (random_source w) (seq (random_used w + 28) 28)))) as H2.
  rewrite Forall_forall in H1, H2. unfold boundary_at.
  split; intros Hin; [apply H1 in Hin | apply H2 in Hin]; congruence.
Qed.

(* ================================================================== *)
(** ** The headers object across calls *)

Lemma generated_id_nonempty (w : World) (e : Email) :
  nonempty (generated_id w e) = true.
Proof. reflexivity. Qed.

Lemma or_else_nonempty (o : option jsstring) (d : jsstring) :
  nonempty d = true -> nonempty (or_else o d) = true.
Proof.
  intros Hd. destruct o as [s|]; simpl; [|exact Hd].
  destruct (nonempty s) eqn:E; [exact E | exact Hd].
Qed.

Lemma or_else_truthy (o : option jsstring) (d : jsstring) :
  truthy o = true -> Some (or_else o d) = o.
Proof.
  destruct o as [s|]; simpl; [|discriminate]. now intros ->.
Qed.

Lemma or_else_falsy (o : option jsstring) (d : jsstring) :
  truthy o = false -> or_else o d = d.
Proof. destruct o as [s|]; simpl; [now intros ->|reflexivity]. Qed.

(** A call on a message that has a [Message-ID] keeps it, and touches no
    object but the headers object. *)
Lemma call_keeps_message_id (users : list User) (s : State) :
  to (this s) = Some users ->
  truthy (hget (lit "Message-ID") (headers_of s)) = true ->
  (exists p, fst (getEmailData s) = Ok p) /\
  this (snd (getEmailData s)) = this s /\
  hget (lit "Message-ID") (headers_of (snd (getEmailData s))) =
    hget (lit "Message-ID") (headers_of s) /\
  (forall r, r <> headers (this s) ->
     deref (store (snd (getEmailData s))) r = deref (store s) r).
Proof.
  destruct s as [w st e]. unfold headers_of at 1 3. cbn [this store].
  intros Hto Hid.
  change (getEmailData (mkState w st e)) with (run getEmailData w st e).
  rewrite (getEmailData_run w st e users Hto). cbn [fst snd].
  rewrite headers_of_final. unfold final_state. cbn [this store].
  split; [eexists; reflexivity|]. split; [reflexivity|]. split.
  - rewrite resolved_message_id. now apply or_else_truthy.
  - intros r Hr. apply deref_set_other. congruence.
Qed.

Lemma after_calls_keep_message_id (users : list User) (n : nat) :
  forall s,
    to (this s) = Some users ->
    truthy (hget (lit "Message-ID") (headers_of s)) = true ->
    (exists p, fst (getEmailData (after_calls n s)) = Ok p) /\
    this (after_calls n s) = this s /\
    hget (lit "Message-ID") (headers_of (after_calls n s)) =
      hget (lit "Message-ID") (headers_of s) /\
    (forall r, r <> headers (this s) ->
       deref (store (after_calls n s)) r = deref (store s) r).
Proof.
  induction n as [|n IH]; intros s Hto Hid.
  - cbn [after_calls].
    destruct (call_keeps_message_id users s Hto Hid) as (Hp & _).
    auto.
  - cbn [after_calls].
    destruct (call_keeps_message_id users s Hto Hid)
      as (_ & Hthis & Hid' & Hother).
    destruct (IH (snd (getEmailData s))) as (Hp & Hthis' & Hsame & Hother').
    { now rewrite Hthis. }
    { now rewrite Hid'. }
    split; [exact Hp|]. split; [now rewrite Hthis'|].
    split; [now rewrite Hsame|].
    intros r Hr. rewrite Hother' by (now rewrite Hthis). now apply Hother.
Qed.

(** C10 - Two calls of [getEmailData] in a row on a message with
    recipients.  Each call leaves the message and every other object as
    they are and changes the headers object of the message, which is the
    caller's own object when the options had one; the first call writes
    the computed [From], [To], [Subject], [Date] and [Message-ID] into it;
    the second call finds the [Message-ID] of the first one and keeps it,
    drawing no new UUID, and so does every later call; the [Date] of the
    second call is a new reading of the clock, its two boundaries are made
    of the next random bytes and the creation dates of its attachment parts
    are new readings of the clock. *)
Theorem getEmailData_mutates_headers (w : World) (st : Store) (e : Email)
    (users : list User) :
  to e = Some users ->
  exists (p1 p2 : jsstring) (s1 s2 : State),
    run getEmailData w st e = (Ok p1, s1) /\
    getEmailData s1 = (Ok p2, s2) /\
    this s1 = e /\ this s2 = e /\
    (forall r, r <> headers e ->
       deref (store s1) r = deref st r /\ deref (store s2) r = deref st r) /\
    (forall o st0 r,
       constructor o st0 = (Ok e, st) -> opt_headers o = Some r ->
       headers e = r /\ st = st0) /\
    hget (lit "From") (headers_of s1) = Some (format_user (from e)) /\
    hget (lit "To") (headers_of s1) =
      Some (join (lit ", ") (map format_user users)) /\
    hget (lit "Subject") (headers_of s1) = Some (subject_word e) /\
    hget (lit "Date") (headers_of s1) = Some (clock w (clock_reads w)) /\
    hget (lit "Message-ID") (headers_of s1) =
      Some (or_else (hget (lit "Message-ID") (deref st (headers e)))
              (generated_id w e)) /\
    hget (lit "Message-ID") (headers_of s2) =
      hget (lit "Message-ID") (headers_of s1) /\
    uuid_used (world s2) = uuid_used (world s1) /\
    (forall n,
       (exists p, fst (getEmailData (after_calls n s1)) = Ok p) /\
       this (after_calls n s1) = e /\
       hget (lit "Message-ID") (headers_of (after_calls n s1)) =
         hget (lit "Message-ID") (headers_of s1)) /\
    hget (lit "Date") (headers_of s2) =
      Some (clock w (length (attachment_list e) + S (clock_reads w))) /\
    (let mixed := boundary_at (lit "mixed_") w (random_used w) in
     let alt := boundary_at (lit "alternative_") w (random_used w + 28) in
     p1 = header_block (entries (headers_of s1)) mixed ++ CRLF ++ CRLF
          ++ delimiter mixed
          ++ alternative_block alt (alternative_parts alt e)
          ++ concat (attachment_blocks mixed (clock w) (S (clock_reads w))
                       (attachment_list e))
          ++ close_delimiter mixed ++ lit "." ++ CRLF) /\
    (let mixed := boundary_at (lit "mixed_") w (random_used w + 28 + 28) in
     let alt := boundary_at (lit "alternative_") w (random_used w + 28 + 28 + 28) in
     p2 = header_block (entries (headers_of s2)) mixed ++ CRLF ++ CRLF
          ++ delimiter mixed
          ++ alternative_block alt (alternative_parts alt e)
          ++ concat (attachment_blocks mixed (clock w)
                       (S (length (attachment_list e) + S (clock_reads w)))
                       (attachment_list e))
          ++ close_delimiter mixed ++ lit "." ++ CRLF).
Proof.
  intros Hto.
  set (h0 := deref st (headers e)).
  set (s1 := final_state w st e users).
  assert (Hh1 : headers_of s1 = resolved_headers w e users h0)
    by apply headers_of_final.
  assert (Hid1 : hget (lit "Message-ID") (headers_of s1) =
                 Some (or_else (hget (lit "Message-ID") h0) (generated_id w e))).
  { rewrite Hh1. apply resolved_message_id. }
  assert (Htruthy : truthy (hget (lit "Message-ID") (headers_of s1)) = true).
  { rewrite Hid1. cbn [truthy]. apply or_else_nonempty, generated_id_nonempty. }
  exists (payload w e users h0),
    (payload (world s1) e users (headers_of s1)),
    s1, (final_state (world s1) (store s1) e users).
  assert (Hh2 : headers_of (final_state (world s1) (store s1) e users) =
                resolved_headers (world s1) e users (headers_of s1))
    by apply headers_of_final.
  split; [now apply getEmailData_run|].
  split; [apply (getEmailData_run (world s1) (store s1) e users); exact Hto|].
  split; [reflexivity|]. split; [reflexivity|].
  split.
  { intros r Hr. unfold final_state, s1, final_state. cbn [store this].
    now rewrite !deref_set_other by congruence. }
  split.
  { intros o st0 r Hc Hr. unfold constructor in Hc. rewrite Hr in Hc.
    destruct (negb (truthy (opt_text o)) && negb (truthy (opt_html o)));
      [discriminate Hc|].
    inversion Hc. split; reflexivity. }
  rewrite Hh2, Hh1.
  split; [apply resolved_from|].
  split; [apply resolved_to|].
  split; [apply resolved_subject|].
  split; [apply resolved_date|].
  split; [apply resolved_message_id|].
  split.
  { rewrite resolved_message_id, <- Hh1. now apply or_else_truthy. }
  split.
  { unfold final_state at 1. cbn [world]. unfold final_world at 1.
    cbn [uuid_used]. change (deref (store s1) (headers e)) with (headers_of s1).
    now rewrite Htruthy. }
  split.
  { intros n.
    destruct (after_calls_keep_message_id users n s1 Hto Htruthy)
      as (Hp & Hthis & Hsame & _).
    rewrite <- Hh1. auto. }
  split; [apply resolved_date|].
  split; reflexivity.
Qed.

Lemma getEmailData_mutates_headers_witness :
  exists (p1 p2 : jsstring) (s1 s2 : State),
    run getEmailData world0 store1 email1 = (Ok p1, s1) /\
    getEmailData s1 = (Ok p2, s2) /\
    hget (lit "Message-ID") (headers_of s1) =
      Some (lit "<3b241101-e2bb-4255-8caf-4136c566a960@mail.example.org>") /\
    hget (lit "Message-ID") (headers_of s2) =
      hget (lit "Message-ID") (headers_of s1) /\
    hget (lit "Date") (headers_of s1) = Some (lit "Tue, 03 Nov 2026 00:00:00 GMT") /\
    hget (lit "Date") (headers_of s2) = Some (lit "Tue, 03 Nov 2026 00:00:03 GMT").
Proof.
  destruct (getEmailData_mutates_headers world0 store1 email1
              [user_b; mkUser (Some (lit "Cy")) (lit "cy@example.com")] eq_refl)
    as (p1 & p2 & s1 & s2 & H1 & H2 & _ & _ & _ & _ & _ & _ & _ & Hd1 & Hm1 & Hm2
        & _ & _ & Hd2 & _).
  exists p1, p2, s1, s2. repeat split; assumption.
Defined.

(* ================================================================== *)
(** ** Custom and reserved headers *)

Lemma not_reserved (k : jsstring) :
  ~ In k reserved_keys ->
  lit "From" <> k /\ lit "To" <> k /\ lit "Reply-To" <> k /\ lit "CC" <> k /\
  lit "Subject" <> k /\ lit "Date" <> k /\ lit "Message-ID" <> k.
Proof.
  unfold reserved_keys. cbn [In]. intros H.
  repeat split; intros Heq; apply H; tauto.
Qed.

(** [resolveHeader] leaves the properties it does not name alone. *)
Lemma resolved_other (w : World) (e : Email) (users : list User) (h0 : Headers)
    (k : jsstring) :
  ~ In k reserved_keys ->
  hget k (resolved_headers w e users h0) = hget k h0.
Proof.
  intros H. apply not_reserved in H.
  destruct H as (H1 & H2 & H3 & H4 & H5 & H6 & H7).
  unfold resolved_headers. cbv zeta.
  rewrite !hget_hset_other by assumption.
  destruct (cc e); [rewrite hget_hset_other by assumption|];
    (destruct (reply e); [rewrite hget_hset_other by assumption|]);
    now rewrite !hget_hset_other by assumption.
Qed.

Lemma resolved_reply_to (w : World) (e : Email) (users : list User)
    (h0 : Headers) :
  hget (lit "Reply-To") (resolved_headers w e users h0) =
  match reply e with
  | Some r => Some (format_user r)
  | None => hget (lit "Reply-To") h0
  end.
Proof.
  unfold resolved_headers. cbv zeta. do 3 other_key.
  destruct (cc e); [other_key|];
    (destruct (reply e); [apply hget_hset_same | now do 2 other_key]).
Qed.

Lemma resolved_cc (w : World) (e : Email) (users : list User) (h0 : Headers) :
  hget (lit "CC") (resolved_headers w e users h0) =
  match cc e with
  | Some l => Some (join (lit ", ") (map format_user l))
  | None => hget (lit "CC") h0
  end.
Proof.
  unfold resolved_headers. cbv zeta. do 3 other_key.
  destruct (cc e); [apply hget_hset_same|].
  destruct (reply e); [other_key|]; now do 2 other_key.
Qed.

(** C2, as the code has it - [getEmailData] emits every caller-supplied
    header whose key is not reserved, with its value; [From], [To],
    [Subject] and [Date] always carry the computed value; [Reply-To] and
    [CC] carry the computed value when the message has a reply address or
    a cc list and the caller-supplied value (if any) otherwise;
    [Message-ID] keeps a non-empty caller-supplied value and is otherwise
    generated as [<uuid@domain>], the domain being the text of the From
    address after its last [@] (the whole address when it has none).
    [h0] is the headers object with the caller-supplied headers. *)
Theorem custom_and_reserved_headers (w : World) (st : Store) (e : Email)
    (users : list User) (h0 : Headers) :
  to e = Some users ->
  deref st (headers e) = h0 ->
  exists (p : jsstring) (s' : State),
    run getEmailData w st e = (Ok p, s') /\
    p = payload w e users h0 /\
    (forall k v, hget k h0 = Some v -> ~ In k reserved_keys ->
       hget k (headers_of s') = Some v /\
       In (k ++ lit ": " ++ v) (map header_line (entries (headers_of s')))) /\
    hget (lit "From") (headers_of s') = Some (format_user (from e)) /\
    hget (lit "To") (headers_of s') =
      Some (join (lit ", ") (map format_user users)) /\
    hget (lit "Subject") (headers_of s') = Some (subject_word e) /\
    hget (lit "Date") (headers_of s') = Some (clock w (clock_reads w)) /\
    hget (lit "Reply-To") (headers_of s') =
      match reply e with
      | Some r => Some (format_user r)
      | None => hget (lit "Reply-To") h0
      end /\
    hget (lit "CC") (headers_of s') =
      match cc e with
      | Some l => Some (join (lit ", ") (map format_user l))
      | None => hget (lit "CC") h0
      end /\
    (truthy (hget (lit "Message-ID") h0) = true ->
     hget (lit "Message-ID") (headers_of s') = hget (lit "Message-ID") h0) /\
    (truthy (hget (lit "Message-ID") h0) = false ->
     hget (lit "Message-ID") (headers_of s') = Some (generated_id w e)) /\
    (forall pre dom,
       email (from e) = pre ++ at_sign :: dom -> ~ In at_sign dom ->
       generated_id w e =
         lit "<" ++ uuid_source w (uuid_used w) ++ lit "@" ++ dom ++ lit ">") /\
    (~ In at_sign (email (from e)) ->
     generated_id w e =
       lit "<" ++ uuid_source w (uuid_used w) ++ lit "@" ++ email (from e)
       ++ lit ">").
Proof.
  intros Hto Hh0. subst h0.
  exists (payload w e users (deref st (headers e))), (final_state w st e users).
  rewrite headers_of_final.
  split; [now apply getEmailData_run|].
  split; [reflexivity|].
  split.
  { intros k v Hget Hk.
    assert (H : hget k (resolved_headers w e users (deref st (headers e))) = Some v)
      by (rewrite resolved_other; assumption).
    split; [exact H|].
    apply in_map_iff. exists (k, v). split; [reflexivity|].
    now apply in_entries, hget_in. }
  split; [apply resolved_from|].
  split; [apply resolved_to|].
  split; [apply resolved_subject|].
  split; [apply resolved_date|].
  split; [apply resolved_reply_to|].
  split; [apply resolved_cc|].
  split.
  { intros Ht. rewrite resolved_message_id. now apply or_else_truthy. }
  split.
  { intros Hf. rewrite resolved_message_id. now rewrite or_else_falsy. }
  split.
  - intros pre dom Hemail Hdom. unfold generated_id.
    now rewrite Hemail, pop_split_after_last.
  - intros Hno. unfold generated_id. now rewrite pop_split_whole.
Qed.

Lemma custom_and_reserved_headers_witness :
  exists (p : jsstring) (s' : State),
    run getEmailData world0 store1 email1 = (Ok p, s') /\
    hget (lit "X-Mailer") (headers_of s') = Some (lit "worker") /\
    hget (lit "From") (headers_of s') = Some (lit "Ann <ann@mail.example.org>") /\
    hget (lit "Message-ID") (headers_of s') =
      Some (lit "<3b241101-e2bb-4255-8caf-4136c566a960@mail.example.org>").
Proof.
  destruct (custom_and_reserved_headers world0 store1 email1
              [user_b; mkUser (Some (lit "Cy")) (lit "cy@example.com")]
              (deref store1 0) eq_refl eq_refl)
    as (p & s' & Hrun & _ & Hcustom & Hfrom & _ & _ & _ & _ & _ & _ & Hgen & _).
  exists p, s'. split; [exact Hrun|]. split; [|split].
  - apply (Hcustom (lit "X-Mailer") (lit "worker")); [reflexivity|].
    cbn [reserved_keys In]. intros H.
    repeat (destruct H as [H|H]; [vm_compute in H; discriminate H|]). exact H.
  - exact Hfrom.
  - apply Hgen. reflexivity.
Defined.

(** C2, as stated, fails: on a message without reply address and without
    cc list, the [Reply-To] and [CC] headers the caller supplied are not
    overwritten; they are emitted with the caller's values. *)
Lemma reserved_not_always_overwritten :
  reply email_reply_header = None /\
  cc email_reply_header = None /\
  hget (lit "Reply-To") (deref store_reply_header (headers email_reply_header)) =
    Some (lit "caller@example.com") /\
  hget (lit "CC") (deref store_reply_header (headers email_reply_header)) =
    Some (lit "copy@example.com") /\
  exists (p : jsstring) (s' : State) (mixed body : jsstring),
    run getEmailData world0 store_reply_header email_reply_header = (Ok p, s') /\
    p = header_block (entries (headers_of s')) mixed ++ body /\
    named (lit "Reply-To") (entries (headers_of s')) =
      [(lit "Reply-To", lit "caller@example.com")] /\
    named (lit "CC") (entries (headers_of s')) =
      [(lit "CC", lit "copy@example.com")].
Proof.
  repeat (split; [reflexivity|]).
  eexists _, _, _, _.
  split; [apply (getEmailData_run world0 store_reply_header email_reply_header
                   [user_b]); reflexivity|].
  split; [reflexivity|].
  split; vm_compute; reflexivity.
Qed.

(* ================================================================== *)
(** ** Blind recipients *)

(** Without recipients [resolveTo] throws, after [resolveFrom] has
    written its header. *)
Lemma getEmailData_throws (w : World) (st : Store) (e : Email) :
  to e = None ->
  run getEmailData w st e =
  (Throw (TypeError (lit "Cannot read properties of undefined (reading 'map')")),
   mkState w
     (store_set st (headers e)
        (hset (lit "From") (format_user (from e)) (deref st (headers e))))
     e).
Proof.
  intros Hto.
  destruct e as [efrom eto ereply ecc ebcc esubject etext ehtml edsn eatt r].
  cbn [to] in Hto. subst eto. reflexivity.
Qed.




(* ================================================================== *)
(** ** Construction *)

(** C4 - [new Email(options)] throws its construction error exactly when
    neither [text] nor [html] is provided, a field being provided when it
    holds a non-empty string (the test of the constructor: [undefined] and
    the empty string both count as not provided); then no message is
    produced and the store is as before.  Every other options value,
    whatever its addresses, headers and attachments are, is accepted and
    gives a message carrying the fields of the options, its headers object
    being the caller's one or, without one, a new empty object. *)
Theorem constructor_raises_iff (o : EmailOptions) (st : Store) :
  ((exists err, fst (constructor o st) = Throw err) <->
   truthy (opt_text o) = false /\ truthy (opt_html o) = false) /\
  (truthy (opt_text o) = false /\ truthy (opt_html o) = false ->
   constructor o st =
     (Throw (Error (lit "At least one of text or html must be provided")), st) /\
   ~ exists e, fst (constructor o st) = Ok e) /\
  (truthy (opt_text o) = true \/ truthy (opt_html o) = true ->
   exists e st',
     constructor o st = (Ok e, st') /\
     to e = toUsers (Some (opt_to o)) /\ cc e = toUsers (opt_cc o) /\
     bcc e = toUsers (opt_bcc o) /\ subject e = opt_subject o /\
     text e = opt_text o /\ html e = opt_html o /\
     attachments e = opt_attachments o /\ dsnOverride e = opt_dsnOverride o /\
     match opt_headers o with
     | Some r => headers e = r /\ st' = st
     | None => headers e = length st /\ st' = st ++ [[]]
     end) /\
  fst (constructor o st) <> Diverge.
Proof.
  unfold constructor.
  destruct (truthy (opt_text o)) eqn:Ht, (truthy (opt_html o)) eqn:Hh;
    cbn [negb andb].
  - split; [split; [intros [err H]; destruct (opt_headers o); discriminate H
                   | intros [H _]; discriminate H]|].
    split; [intros [H _]; discriminate H|].
    split; [intros _; destruct (opt_headers o); eexists _, _;
            repeat split; reflexivity
           | destruct (opt_headers o); discriminate].
  - split; [split; [intros [err H]; destruct (opt_headers o); discriminate H
                   | intros [H _]; discriminate H]|].
    split; [intros [H _]; discriminate H|].
    split; [intros _; destruct (opt_headers o); eexists _, _;
            repeat split; reflexivity
           | destruct (opt_headers o); discriminate].
  - split; [split; [intros [err H]; destruct (opt_headers o); discriminate H
                   | intros [_ H]; discriminate H]|].
    split; [intros [_ H]; discriminate H|].
    split; [intros _; destruct (opt_headers o); eexists _, _;
            repeat split; reflexivity
           | destruct (opt_headers o); discriminate].
  - split; [split; [intros _; split; reflexivity | intros _; eexists; reflexivity]|].
    split; [intros _; split; [reflexivity | intros [e H]; discriminate H]|].
    split; [intros [H|H]; discriminate H | discriminate].
Qed.

(* ================================================================== *)
(** ** Address normalization *)

Lemma toUsers_many (l : list StringOrUser) :
  exists users,
    toUsers (Some (Many l)) = Some users /\ Forall2 resolves_to l users.
Proof.
  eexists; split; [reflexivity|].
  induction l as [|x l IH]; constructor; [destruct x; reflexivity | exact IH].
Qed.

Lemma constructor_to (o : EmailOptions) (st st' : Store) (e : Email) :
  constructor o st = (Ok e, st') -> to e = toUsers (Some (opt_to o)).
Proof.
  unfold constructor.
  destruct (negb (truthy (opt_text o)) && negb (truthy (opt_html o)));
    [discriminate|].
  destruct (opt_headers o); intros H; inversion H; reflexivity.
Qed.

(** C7, as the code has it - [toUsers] returns [undefined] for an absent
    input and for the empty string, a one-address list for a non-empty
    string and for a single address, and for a list the list of its
    elements, each a string turned into an address or an address kept, so
    an empty list gives an empty list.  Hence the recipients of a
    constructed message are undefined exactly when [to] was the empty
    string, and an empty sequence exactly when [to] was the empty list. *)
Theorem toUsers_normalizes :
  toUsers None = None /\
  toUsers (Some (OneString [])) = None /\
  (forall s, s <> [] -> toUsers (Some (OneString s)) = Some [mkUser None s]) /\
  (forall u, toUsers (Some (OneUser u)) = Some [u]) /\
  (forall l, exists users,
     toUsers (Some (Many l)) = Some users /\ Forall2 resolves_to l users) /\
  toUsers (Some (Many [])) = Some [] /\
  (forall o st e st', constructor o st = (Ok e, st') ->
     (to e = None <-> opt_to o = OneString []) /\
     (to e = Some [] <-> opt_to o = Many []) /\
     (opt_to o <> OneString [] -> opt_to o <> Many [] ->
      exists u users, to e = Some (u :: users))).
Proof.
  split; [reflexivity|]. split; [reflexivity|].
  split; [intros [|c s] H; [congruence | reflexivity]|].
  split; [reflexivity|].
  split; [apply toUsers_many|].
  split; [reflexivity|].
  intros o st e st' H. rewrite (constructor_to o st st' e H).
  destruct (opt_to o) as [[|c s]|u|[|x l]]; cbn [toUsers nonempty map];
    (split; [split; intros H0; congruence|]);
    (split; [split; intros H0; congruence|]);
    intros H1 H2; try congruence; eexists _, _; reflexivity.
Qed.

(** C7, as stated, fails: an empty list of recipients is normalized to an
    empty list, not to [undefined], and the message constructed from it
    has an empty [to] sequence. *)
Lemma toUsers_empty_list :
  toUsers (Some (Many [])) = Some [] /\
  toUsers (Some (Many [])) <> None /\
  exists e st', constructor options_no_recipient [] = (Ok e, st') /\ to e = Some [].
Proof.
  split; [reflexivity|]. split; [discriminate|].
  eexists _, _; split; reflexivity.
Qed.

(* ================================================================== *)
(** ** MIME types *)

Lemma hget_notin (k : jsstring) (h : Headers) :
  ~ In k (map fst h) -> hget k h = None.
Proof.
  induction h as [|[k' v'] h IH]; simpl; [reflexivity|].
  intros H. destruct (str_eqb k k') eqn:E.
  - apply str_eqb_eq in E. subst. tauto.
  - apply IH. tauto.
Qed.

Lemma existsb_str_notin (k : jsstring) (l : list jsstring) :
  ~ In k l -> existsb (str_eqb k) l = false.
Proof.
  induction l as [|a l IH]; simpl; [reflexivity|].
  intros H. destruct (str_eqb k a) eqn:E.
  - apply str_eqb_eq in E. subst. tauto.
  - apply IH. tauto.
Qed.

Lemma object_prototype_none (k : jsstring) :
  ~ In k inherited_keys -> object_prototype k = None.
Proof.
  unfold inherited_keys, object_prototype. cbn [In]. intros H.
  destruct (str_eqb k (lit "__proto__")) eqn:E1;
    [apply str_eqb_eq in E1; subst; tauto|].
  destruct (str_eqb k (lit "constructor")) eqn:E2;
    [apply str_eqb_eq in E2; subst; tauto|].
  rewrite existsb_str_notin; [reflexivity | tauto].
Qed.

(** The key looked up by [getMimeType]: the lower-cased last segment of
    the filename, or [txt] when that segment is empty. *)
Lemma getMimeType_key (filename x : jsstring) :
  pop (split dot filename) = Some x ->
  getMimeType filename =
  match mimeTypes_get (if nonempty x then toLowerCase x else lit "txt") with
  | Some v => if value_truthy v then v else VString octet_stream
  | None => VString octet_stream
  end.
Proof.
  intros H. unfold getMimeType. rewrite H. cbn [option_map or_else].
  now destruct x.
Qed.

Lemma getMimeType_known (filename x k m : jsstring) :
  pop (split dot filename) = Some x ->
  In (k, m) mime_table ->
  toLowerCase x = k ->
  getMimeType filename = VString m.
Proof.
  intros Hpop Hin Hk. rewrite (getMimeType_key filename x Hpop).
  assert (Hx : nonempty x = true).
  { destruct x; [|reflexivity]. cbn in Hk. subst k.
    unfold mime_table in Hin. cbn [In] in Hin.
    repeat (destruct Hin as [Hin|Hin]; [vm_compute in Hin; discriminate Hin|]).
    destruct Hin. }
  rewrite Hx, Hk. unfold mime_table in Hin. cbn [In] in Hin.
  repeat (destruct Hin as [Hin|Hin]; [inversion Hin; subst; reflexivity|]).
  destruct Hin.
Qed.

Lemma getMimeType_unknown (filename x : jsstring) :
  pop (split dot filename) = Some x ->
  x <> [] ->
  ~ In (toLowerCase x) (map fst mime_table ++ inherited_keys) ->
  getMimeType filename = VString octet_stream.
Proof.
  intros Hpop Hx Hnot. rewrite (getMimeType_key filename x Hpop).
  apply nonempty_true in Hx. rewrite Hx. unfold mimeTypes_get.
  rewrite hget_notin by (intros H; apply Hnot, in_or_app; now left).
  rewrite object_prototype_none by (intros H; apply Hnot, in_or_app; now right).
  reflexivity.
Qed.

(** C8, as the code has it - [getMimeType] takes the text after the last
    dot of the filename, or the whole filename when it has no dot, lower
    cases it, and maps it through the table; a text that is neither in the
    table nor a name every table object inherits gives
    [application/octet-stream]; an empty text (a filename that is empty or
    ends with a dot) is looked up as [txt] and gives [text/plain].  An
    attachment named [a.pdf] without [mimeType] gets [application/pdf]. *)
Theorem getMimeType_table :
  (forall base x k m,
     ~ In dot x -> In (k, m) mime_table -> toLowerCase x = k ->
     getMimeType (base ++ dot :: x) = VString m /\
     getMimeType x = VString m) /\
  (forall base x,
     ~ In dot x -> x <> [] ->
     ~ In (toLowerCase x) (map fst mime_table ++ inherited_keys) ->
     getMimeType (base ++ dot :: x) = VString octet_stream /\
     getMimeType x = VString octet_stream) /\
  (forall base, getMimeType (base ++ [dot]) = VString (lit "text/plain")) /\
  getMimeType [] = VString (lit "text/plain") /\
  attachment_type attachment_pdf = lit "application/pdf" /\
  (forall mixed now,
     attachment_block mixed attachment_pdf now =
     delimiter mixed
     ++ lit "Content-Type: application/pdf; name=" ++ DQ ++ lit "a.pdf" ++ DQ ++ CRLF
     ++ lit "Content-Description: a.pdf" ++ CRLF
     ++ lit "Content-Disposition: attachment; filename="
     ++ DQ ++ lit "a.pdf" ++ DQ ++ lit ";" ++ CRLF
     ++ lit "    creation-date=" ++ DQ ++ now ++ DQ ++ lit ";" ++ CRLF
     ++ lit "Content-Transfer-Encoding: base64" ++ CRLF ++ CRLF
     ++ lit "JVBERi0xLjQK" ++ CRLF ++ CRLF).
Proof.
  split; [|split; [|split; [|split; [|split]]]].
  - intros base x k m Hdot Hin Hk. split.
    + apply (getMimeType_known _ x k m); auto using pop_split_after_last.
    + apply (getMimeType_known _ x k m); auto using pop_split_whole.
  - intros base x Hdot Hx Hnot. split.
    + apply (getMimeType_unknown _ x); auto using pop_split_after_last.
    + apply (getMimeType_unknown _ x); auto using pop_split_whole.
  - intros base.
    rewrite (getMimeType_key (base ++ [dot]) []); [reflexivity|].
    apply pop_split_after_last. intros [].
  - reflexivity.
  - reflexivity.
  - intros mixed now. unfold attachment_block.
    change (attachment_type attachment_pdf) with (lit "application/pdf").
    change (attachment_body attachment_pdf) with (lit "JVBERi0xLjQK").
    change (filename attachment_pdf) with (lit "a.pdf").
    repeat rewrite <- app_assoc. reflexivity.
Qed.

(** C8, as stated, fails: a filename that ends with a dot, or is empty, has
    no extension and yet gets [text/plain], and a filename without a dot
    is taken whole as its extension. *)
Lemma getMimeType_missing_extension :
  getMimeType (lit "report.") = VString (lit "text/plain") /\
  getMimeType (lit "report.") <> VString (lit "application/octet-stream") /\
  getMimeType [] = VString (lit "text/plain") /\
  getMimeType (lit "pdf") = VString (lit "application/pdf").
Proof.
  split; [reflexivity|]. split; [|split; reflexivity].
  intros H. vm_compute in H. discriminate H.
Qed.

(** A key inherited from [Object.prototype] is found in the table object
    and comes back as the inherited member, not as a string. *)
Example getMimeType_inherited :
  getMimeType (lit "x.constructor") = VFunction (lit "Object") /\
  to_string (getMimeType (lit "x.constructor")) =
    lit "function Object() { [native code] }".
Proof. split; reflexivity. Qed.

(* ================================================================== *)
(** * Further properties of the code *)

(* ================================================================== *)
(** ** More on [wrapText] *)

Lemma concat_emit (cur : jsstring) : concat (emit cur) = cur.
Proof. destruct cur; simpl; [reflexivity | now rewrite app_nil_r]. Qed.

Lemma concat_match_nonspace_aux (s cur : jsstring) :
  Forall (fun c => is_space c = false) cur ->
  concat (match_nonspace_aux cur s) = cur ++ filter not_space s.
Proof.
  revert cur; induction s as [|c s IH]; intros cur Hcur; cbn [match_nonspace_aux filter].
  - rewrite concat_emit. now rewrite app_nil_r.
  - unfold not_space at 1. destruct (is_space c) eqn:Hc; cbn [negb].
    + rewrite concat_app, concat_emit, IH by constructor. reflexivity.
    + rewrite IH by (apply Forall_app; split; [assumption | repeat constructor; assumption]).
      now rewrite <- app_assoc.
Qed.

(** The words of a text are its characters other than white space. *)
Lemma concat_match_nonspace (s : jsstring) :
  concat (match_nonspace s) = filter not_space s.
Proof. apply (concat_match_nonspace_aux s []). constructor. Qed.

Lemma concat_words_of_lines (lines : list jsstring) :
  concat (flat_map match_nonspace lines) = filter not_space (concat lines).
Proof.
  induction lines as [|l lines IH]; [reflexivity|].
  cbn [flat_map concat]. now rewrite concat_app, filter_app, IH, concat_match_nonspace.
Qed.

Lemma concat_flat_map_pieces (n : nat) (ws : list jsstring) :
  0 < n -> concat (flat_map (pieces n) ws) = concat ws.
Proof.
  intros Hn. induction ws as [|w ws IH]; [reflexivity|].
  cbn [flat_map concat]. now rewrite concat_app, concat_pieces, IH.
Qed.

(** X1 - [wrapText] with a positive limit loses and reorders no character
    other than white space, forced splits of long words included: the
    characters of the lines that are not white space are those of the
    text, in order. *)
Theorem wrapText_keeps_characters (text : jsstring) (limit : nat) :
  0 < limit ->
  exists lines,
    wrapText text limit = Some lines /\
    filter not_space (concat lines) = filter not_space text.
Proof.
  intros Hn. destruct (wrapText_spec text limit Hn) as (lines & E & _ & W).
  exists lines. split; [exact E|].
  rewrite <- concat_words_of_lines, W, concat_flat_map_pieces by assumption.
  apply concat_match_nonspace.
Qed.

Lemma wrapText_keeps_characters_witness :
  exists lines,
    wrapText (lit "ab  cdefgh i") 3 = Some lines /\
    filter not_space (concat lines) = lit "abcdefghi".
Proof.
  exact (wrapText_keeps_characters (lit "ab  cdefgh i") 3 ltac:(lia)).
Defined.

Lemma join_two (sep x : jsstring) (l : list jsstring) :
  l <> [] -> join sep (x :: l) = x ++ sep ++ join sep l.
Proof. destruct l; [congruence | reflexivity]. Qed.

Lemma join_snoc (sep x : jsstring) (l : list jsstring) :
  l <> [] -> join sep (l ++ [x]) = join sep l ++ sep ++ x.
Proof.
  induction l as [|a l IH]; [congruence|]. intros _.
  destruct l as [|b l].
  - reflexivity.
  - change ((a :: b :: l) ++ [x]) with (a :: ((b :: l) ++ [x])).
    rewrite join_two by (destruct l; discriminate).
    rewrite IH by discriminate.
    rewrite (join_two sep a (b :: l)) by discriminate.
    now rewrite <- !app_assoc.
Qed.

Lemma word_spaced (w : jsstring) : word w -> spaced_line w.
Proof.
  intros Hw. split; [apply Hw|]. now rewrite (match_nonspace_word w Hw).
Qed.

Lemma spaced_words_nonempty (l : jsstring) :
  spaced_line l -> match_nonspace l <> [].
Proof. intros [Hne Heq] H. rewrite H in Heq. simpl in Heq. congruence. Qed.

Lemma spaced_add_word (cur w : jsstring) :
  spaced_line cur -> word w -> spaced_line (cur ++ lit " " ++ w).
Proof.
  intros Hcur Hw. split.
  - destruct cur; [destruct Hcur; congruence | discriminate].
  - change (lit " " ++ w) with (32%N :: w).
    rewrite match_nonspace_app by reflexivity.
    rewrite (match_nonspace_word w Hw).
    rewrite join_snoc by now apply spaced_words_nonempty.
    destruct Hcur as [_ Heq]. now rewrite <- Heq.
Qed.

Lemma wrapText_loop_spaced (n : nat) :
  0 < n ->
  forall ws lines cur lines' cur',
    wrapText_loop ws lines cur n = Some (lines', cur') ->
    Forall word ws ->
    Forall spaced_line lines ->
    (cur = [] \/ spaced_line cur) ->
    Forall spaced_line lines' /\ (cur' = [] \/ spaced_line cur').
Proof.
  intros Hn; induction ws as [|w ws IH]; intros lines cur lines' cur' E Hws Hl Hc.
  - cbn in E. inversion E; subst. auto.
  - inversion Hws as [|? ? Hw Hws']; subst. cbn [wrapText_loop] in E.
    destruct (Nat.ltb_spec n (length w)) as [Hlong|Hshort].
    + rewrite wrapText_slices_chunks in E by assumption.
      apply (IH _ _ _ _ E Hws'); [|now left].
      apply Forall_app; split.
      * destruct cur as [|c cur]; cbn [nonempty]; [exact Hl|].
        apply Forall_app; split; [exact Hl|].
        destruct Hc as [Hc|Hc]; [discriminate|].
        constructor; [exact Hc | constructor].
      * eapply Forall_impl; [apply word_spaced|].
        apply chunks_aux_words; [assumption | apply Hw].
    + destruct (Nat.leb_spec
                  (length cur + length w + (if nonempty cur then 1 else 0)) n)
        as [Hfit|Hfull].
      * apply (IH _ _ _ _ E Hws' Hl). right.
        destruct Hc as [->|Hc].
        -- cbn [nonempty app]. now apply word_spaced.
        -- destruct cur as [|c cur]; [destruct Hc; congruence|].
           cbn [nonempty]. now apply spaced_add_word.
      * apply (IH _ _ _ _ E Hws'); [|right; now apply word_spaced].
        apply Forall_app; split; [exact Hl|].
        destruct Hc as [->|Hc]; [cbn in Hfull; lia|].
        constructor; [exact Hc | constructor].
Qed.

(** X2 - Every line [wrapText] returns for a positive limit is non-empty
    and is its words separated by single spaces: white space of any kind
    and length in the text becomes one space or a line break, and no line
    starts or ends with a space. *)
Theorem wrapText_lines_spaced (text : jsstring) (limit : nat) :
  0 < limit ->
  exists lines,
    wrapText text limit = Some lines /\
    Forall (fun l => l <> [] /\ l = join (lit " ") (match_nonspace l)) lines.
Proof.
  intros Hn. destruct (wrapText_spec text limit Hn) as (lines & E & _).
  exists lines. split; [exact E|].
  unfold wrapText in E.
  destruct (wrapText_loop (match_nonspace text) [] [] limit) as [[l' c']|] eqn:El;
    [|discriminate].
  destruct (wrapText_loop_spaced limit Hn _ _ _ _ _ El (match_nonspace_words text))
    as [Hl Hc]; [constructor | now left |].
  inversion E; subst lines. destruct c' as [|c c']; [exact Hl|].
  apply Forall_app; split; [exact Hl|].
  destruct Hc as [Hc|Hc]; [discriminate|].
  constructor; [exact Hc | constructor].
Qed.

Lemma wrapText_lines_spaced_witness :
  exists lines,
    wrapText (lit "  to   be or not  ") 5 = Some lines /\
    Forall (fun l => l <> [] /\ l = join (lit " ") (match_nonspace l)) lines.
Proof. exact (wrapText_lines_spaced (lit "  to   be or not  ") 5 ltac:(lia)). Defined.

Lemma match_nonspace_blank (s : jsstring) :
  Forall (fun c => is_space c = true) s -> match_nonspace s = [].
Proof.
  unfold match_nonspace. induction 1 as [|c s Hc _ IH]; [reflexivity|].
  cbn [match_nonspace_aux]. now rewrite Hc.
Qed.






Lemma length_join_prefix (sep : jsstring) (a b : list jsstring) :
  length (join sep a) <= length (join sep (a ++ b)).
Proof.
  induction a as [|x a IH]; [cbn; lia|].
  destruct a as [|y a].
  - destruct b as [|z b]; [cbn; lia|].
    change (([x] ++ z :: b)) with (x :: z :: b).
    rewrite (join_two sep x (z :: b)) by discriminate.
    rewrite length_app. cbn; lia.
  - change ((x :: y :: a) ++ b) with (x :: ((y :: a) ++ b)).
    rewrite (join_two sep x (y :: a)), (join_two sep x ((y :: a) ++ b))
      by discriminate.
    rewrite !length_app. lia.
Qed.

Lemma length_join_last (sep x : jsstring) (a : list jsstring) :
  length x <= length (join sep (a ++ [x])).
Proof.
  induction a as [|y a IH]; [cbn; lia|].
  change ((y :: a) ++ [x]) with (y :: (a ++ [x])).
  rewrite (join_two sep y (a ++ [x])) by (destruct a; discriminate).
  rewrite !length_app. lia.
Qed.

Lemma join_words_nonempty (sep : jsstring) (l : list jsstring) :
  Forall word l -> l <> [] -> nonempty (join sep l) = true.
Proof.
  intros H Hne. destruct H as [|w l [Hw _] _]; [congruence|].
  destruct l; [|rewrite join_two by discriminate];
    destruct w; try congruence; reflexivity.
Qed.

Lemma wrapText_loop_fits (n : nat) :
  forall ws done,
    Forall word ws -> Forall word done ->
    length (join (lit " ") (done ++ ws)) <= n ->
    wrapText_loop ws [] (join (lit " ") done) n =
    Some ([], join (lit " ") (done ++ ws)).
Proof.
  induction ws as [|w ws IH]; intros done Hws Hdone Hlen.
  - now rewrite app_nil_r.
  - inversion Hws as [|? ? Hw Hws']; subst.
    assert (Hstep : length (join (lit " ") (done ++ [w])) <= n).
    { etransitivity; [apply (length_join_prefix _ (done ++ [w]) ws)|].
      now rewrite <- app_assoc. }
    assert (Hw_le : length w <= n).
    { etransitivity; [apply (length_join_last (lit " ") w done) | exact Hstep]. }
    assert (Hcur : join (lit " ") done
                   ++ (if nonempty (join (lit " ") done) then lit " " else []) ++ w
                   = join (lit " ") (done ++ [w])).
    { destruct done as [|d done]; [reflexivity|].
      rewrite join_words_nonempty by (assumption || discriminate).
      now rewrite join_snoc by discriminate. }
    cbn [wrapText_loop].
    destruct (Nat.ltb_spec n (length w)) as [Hlong|_]; [lia|].
    destruct (Nat.leb_spec
                (length (join (lit " ") done) + length w
                 + (if nonempty (join (lit " ") done) then 1 else 0)) n)
      as [_|Hfull].
    + rewrite Hcur. rewrite (IH (done ++ [w])); [now rewrite <- app_assoc | assumption | |].
      * apply Forall_app; split; [assumption | repeat constructor; apply Hw].
      * now rewrite <- app_assoc.
    + rewrite <- Hcur, !length_app in Hstep.
      destruct (nonempty (join (lit " ") done));
        [change (length (lit " ")) with 1 in Hstep | cbn [length] in Hstep]; lia.
Qed.

(** X4 - A text whose words, joined by single spaces, fit within the limit
    is wrapped to exactly one line: those words joined by single spaces. *)
Theorem wrapText_single_line (text : jsstring) (limit : nat) :
  match_nonspace text <> [] ->
  length (join (lit " ") (match_nonspace text)) <= limit ->
  wrapText text limit = Some [join (lit " ") (match_nonspace text)].
Proof.
  intros Hne Hlen. unfold wrapText.
  change (wrapText_loop (match_nonspace text) [] [] limit)
    with (wrapText_loop (match_nonspace text) [] (join (lit " ") []) limit).
  rewrite (wrapText_loop_fits limit (match_nonspace text) []);
    [|apply match_nonspace_words | constructor | exact Hlen].
  cbn [app]. rewrite join_words_nonempty;
    [reflexivity | apply match_nonspace_words | exact Hne].
Qed.

Lemma wrapText_single_line_witness :
  wrapText (lit "  hello   wide world ") 17 = Some [lit "hello wide world"].
Proof.
  apply (wrapText_single_line (lit "  hello   wide world ") 17).
  - discriminate.
  - vm_compute. lia.
Defined.

(* ================================================================== *)
(** ** The lines of an attachment *)

Lemma match_dot_aux_spec (k : nat) :
  0 < k ->
  forall s cur,
    length cur <= k ->
    Forall (fun c => is_line_terminator c = false) cur ->
    Forall (fun l => 1 <= length l <= k /\
                     Forall (fun c => is_line_terminator c = false) l)
           (match_dot_aux k cur s) /\
    concat (match_dot_aux k cur s) = cur ++ filter not_line_terminator s.
Proof.
  intros Hk. induction s as [|c s IH]; intros cur Hlen Hcur;
    cbn [match_dot_aux filter].
  - rewrite concat_emit, app_nil_r. split; [|reflexivity].
    destruct cur as [|x cur]; cbn [emit]; constructor; [|constructor].
    split; [cbn [length] in *; lia | exact Hcur].
  - unfold not_line_terminator at 1.
    destruct (is_line_terminator c) eqn:Hc; cbn [negb].
    + destruct (IH [] ltac:(cbn; lia) ltac:(constructor)) as [HF HC].
      rewrite concat_app, concat_emit, HC. split; [|reflexivity].
      apply Forall_app; split; [|exact HF].
      destruct cur as [|x cur]; cbn [emit]; constructor; [|constructor].
      split; [cbn [length] in *; lia | exact Hcur].
    + destruct (Nat.eqb_spec (length cur) k) as [Heq|Hne].
      * destruct (IH [c] ltac:(cbn; lia) ltac:(repeat constructor; exact Hc))
          as [HF HC].
        cbn [concat]. rewrite HC. split; [|reflexivity].
        constructor; [|exact HF]. split; [lia | exact Hcur].
      * destruct (IH (cur ++ [c])) as [HF HC].
        { rewrite length_app. cbn [length]. lia. }
        { apply Forall_app; split; [exact Hcur | repeat constructor; exact Hc]. }
        rewrite HC, <- app_assoc. split; [exact HF | reflexivity].
Qed.

(** X5 - The content of an attachment is cut into lines of 1 to 72
    characters without line terminators, which together are the content
    with its line terminators taken out; there is no such line exactly when
    the content is empty or made of line terminators only, and then the
    content is written as it is. *)
Theorem attachment_lines (a : Attachment) :
  Forall (fun l => 1 <= length l <= 72 /\
                   Forall (fun c => is_line_terminator c = false) l)
         (match_dot 72 (content a)) /\
  concat (match_dot 72 (content a)) = filter not_line_terminator (content a) /\
  (match_dot 72 (content a) = [] <->
   Forall (fun c => is_line_terminator c = true) (content a)) /\
  (match_dot 72 (content a) <> [] ->
   attachment_body a = join CRLF (match_dot 72 (content a))) /\
  (match_dot 72 (content a) = [] -> attachment_body a = content a).
Proof.
  destruct (match_dot_aux_spec 72 ltac:(lia) (content a) [] ltac:(cbn; lia)
              ltac:(constructor)) as [HF HC].
  fold (match_dot 72 (content a)) in HF, HC. cbn [app] in HC.
  split; [exact HF|]. split; [exact HC|]. split; [|split].
  - split.
    + intros H. rewrite H in HC. cbn in HC. symmetry in HC.
      clear HF H. induction (content a) as [|c s IH]; [constructor|].
      cbn [filter] in HC. unfold not_line_terminator at 1 in HC.
      destruct (is_line_terminator c) eqn:Hc; [|discriminate HC].
      constructor; [exact Hc | now apply IH].
    + intros H.
      assert (Hnil : filter not_line_terminator (content a) = []).
      { clear HF HC. induction H as [|c s Hc _ IH]; [reflexivity|].
        cbn [filter]. unfold not_line_terminator at 1. now rewrite Hc. }
      rewrite Hnil in HC.
      destruct (match_dot 72 (content a)) as [|l ls]; [reflexivity|].
      inversion HF as [|? ? [Hlen _] _]; subst.
      destruct l; [cbn in Hlen; lia | discriminate HC].
  - intros Hne. unfold attachment_body. cbv zeta.
    destruct (match_dot 72 (content a)); [congruence | reflexivity].
  - intros Hnil. unfold attachment_body. cbv zeta. now rewrite Hnil.
Qed.

Lemma printable_not_line_terminator (c : N) :
  (33 <= c <= 126)%N -> is_line_terminator c = false.
Proof.
  intros H. unfold is_line_terminator. cbn [existsb].
  repeat match goal with
         | |- context [N.eqb ?a ?b] => destruct (N.eqb_spec a b); [lia|]
         end.
  reflexivity.
Qed.

Lemma filter_all {A : Type} (f : A -> bool) (l : list A) :
  Forall (fun x => f x = true) l -> filter f l = l.
Proof.
  induction 1 as [|x l Hx _ IH]; [reflexivity|].
  cbn [filter]. now rewrite Hx, IH.
Qed.

(** X6 - For a content of printable ASCII characters, as a base64 text is,
    taking the line breaks out of the written attachment body gives the
    content back. *)
Theorem attachment_body_round_trip (a : Attachment) :
  Forall (fun c => (33 <= c <= 126)%N) (content a) ->
  remove_line_breaks (attachment_body a) = content a.
Proof.
  intros Hp.
  destruct (match_dot_aux_spec 72 ltac:(lia) (content a) [] ltac:(cbn; lia)
              ltac:(constructor)) as [_ HC].
  fold (match_dot 72 (content a)) in HC. cbn [app] in HC.
  rewrite filter_all in HC
    by (eapply Forall_impl; [|exact Hp]; intros c Hc; unfold not_line_terminator;
        now rewrite printable_not_line_terminator).
  unfold attachment_body. cbv zeta.
  destruct (match_dot 72 (content a)) as [|l ls] eqn:E.
  - now apply remove_line_breaks_printable.
  - rewrite remove_line_breaks_join; [exact HC|].
    apply Forall_concat. now rewrite HC.
Qed.

Lemma attachment_body_round_trip_witness :
  remove_line_breaks (attachment_body attachment_pdf) = lit "JVBERi0xLjQK".
Proof.
  apply (attachment_body_round_trip attachment_pdf).
  cbn [attachment_pdf content].
  repeat (constructor; [vm_compute; split; discriminate|]). constructor.
Defined.

(* ================================================================== *)
(** ** More on base64, the subject and the HTML body *)

Lemma b64_char_alphabet (n : N) : base64_char (b64_char n) = true.
Proof.
  unfold base64_char, b64_char, b64_index.
  repeat match goal with
         | |- context [N.ltb ?a ?b] => destruct (N.ltb_spec a b)
         | |- context [N.leb ?a ?b] => destruct (N.leb_spec a b)
         | |- context [N.eqb ?a ?b] => destruct (N.eqb_spec a b)
         | _ => progress cbn [andb]
         end; try reflexivity; try lia.
Qed.

Lemma toString_base64_alphabet_le (n : nat) :
  forall bs, length bs <= n ->
    Forall (fun c => base64_char c = true) (toString_base64 bs).
Proof.
  induction n as [n IH] using lt_wf_ind. intros bs Hlen.
  destruct bs as [|a [|b [|c rest]]]; cbn [toString_base64].
  - constructor.
  - repeat constructor; apply b64_char_alphabet.
  - repeat constructor; apply b64_char_alphabet.
  - repeat (constructor; [apply b64_char_alphabet|]).
    apply (IH (length rest)); cbn [length] in Hlen; lia.
Qed.

Lemma toString_base64_alphabet (bs : list byte) :
  Forall (fun c => base64_char c = true) (toString_base64 bs).
Proof. apply (toString_base64_alphabet_le (length bs)); lia. Qed.

Lemma toString_base64_length_le (n : nat) :
  forall bs, length bs <= n ->
    length (toString_base64 bs) = 4 * ((length bs + 2) / 3).
Proof.
  induction n as [n IH] using lt_wf_ind. intros bs Hlen.
  destruct bs as [|a [|b [|c rest]]]; cbn [toString_base64 length];
    try reflexivity.
  rewrite (IH (length rest)) by (cbn [length] in Hlen; lia).
  replace (S (S (S (length rest))) + 2) with (1 * 3 + (length rest + 2)) by lia.
  rewrite Nat.div_add_l by lia. lia.
Qed.

(** The length of a base64 text: four characters for every three bytes,
    the last group padded. *)
Lemma toString_base64_length (bs : list byte) :
  length (toString_base64 bs) = 4 * ((length bs + 2) / 3).
Proof. apply (toString_base64_length_le (length bs)); lia. Qed.

Lemma base64_char_dash (c : N) : base64_char c = true -> c <> 45%N.
Proof. intros H ->. discriminate H. Qed.

(** X7 - The value [resolveSubject] writes is an encoded word whose middle
    part decodes to the UTF-8 bytes of the subject, and it is made of
    printable ASCII characters only, so nothing in a subject (a line break,
    say) can start a new header line. *)
Theorem subject_round_trip (s : State) :
  exists (s' : State) (b64 : jsstring),
    resolveSubject s = (Ok tt, s') /\
    hget (lit "Subject") (headers_of s') =
      Some (lit "=?utf-8?b?" ++ b64 ++ lit "?=") /\
    base64_decode b64 = Some (utf8_encode (subject (this s))) /\
    Forall (fun c => (33 <= c <= 126)%N) (lit "=?utf-8?b?" ++ b64 ++ lit "?=").
Proof.
  eexists _, (toString_base64 (utf8_encode (subject (this s)))).
  split; [reflexivity|]. split; [|split].
  - unfold headers_of. cbn [this store]. rewrite deref_set_same.
    apply hget_hset_same.
  - apply base64_roundtrip.
  - apply Forall_app; split; [|apply Forall_app; split].
    + repeat (constructor; [vm_compute; split; discriminate|]). constructor.
    + apply base64_printable.
    + repeat (constructor; [vm_compute; split; discriminate|]). constructor.
Qed.

(** X8 - The subject is never folded: the written value is one word of
    12 + 4 * ceil(n / 3) characters for a subject of n UTF-8 bytes,
    however long the subject is. *)
Theorem subject_never_folded (s : State) :
  exists (s' : State) (v : jsstring),
    resolveSubject s = (Ok tt, s') /\
    hget (lit "Subject") (headers_of s') = Some v /\
    length v = 12 + 4 * ((length (utf8_encode (subject (this s))) + 2) / 3) /\
    match_nonspace v = [v].
Proof.
  eexists _, _. split; [reflexivity|]. split; [|split].
  - unfold headers_of. cbn [this store]. rewrite deref_set_same.
    apply hget_hset_same.
  - rewrite !length_app, toString_base64_length.
    change (length (lit "=?utf-8?b?")) with 10.
    change (length (lit "?=")) with 2. lia.
  - apply match_nonspace_word. split; [discriminate|].
    apply Forall_app; split; [|apply Forall_app; split].
    + repeat (constructor; [reflexivity|]). constructor.
    + eapply Forall_impl; [apply printable_not_space | apply base64_printable].
    + repeat (constructor; [reflexivity|]). constructor.
Qed.

Lemma chunks_aux_full (n fuel : nat) (w : jsstring) :
  Forall (fun l => length l = n) (removelast (chunks_aux fuel n w)).
Proof.
  revert w; induction fuel as [|fuel IH]; intros w; [constructor|].
  destruct w as [|c w]; [constructor|].
  cbn [chunks_aux].
  destruct (chunks_aux fuel n (skipn n (c :: w))) as [|x rest] eqn:E.
  - constructor.
  - change (removelast (firstn n (c :: w) :: x :: rest))
      with (firstn n (c :: w) :: removelast (x :: rest)).
    constructor; [|rewrite <- E; apply IH].
    rewrite length_firstn. apply Nat.min_l.
    destruct (Nat.le_gt_cases n (length (c :: w))) as [H|H]; [exact H|].
    rewrite skipn_all2 in E by lia. destruct fuel; discriminate E.
Qed.

Lemma chunks_aux_nonempty (n fuel : nat) (w : jsstring) :
  0 < n -> Forall (fun l => 1 <= length l) (chunks_aux fuel n w).
Proof.
  intros Hn. revert w; induction fuel as [|fuel IH]; intros w; [constructor|].
  destruct w as [|c w]; [constructor|].
  cbn [chunks_aux]. constructor; [|apply IH].
  rewrite length_firstn. cbn [length]. lia.
Qed.

(** X9 - The body of the HTML part: the base64 text of the UTF-8 bytes of
    the HTML cut into lines of exactly 76 characters, the last one 1 to 76
    long, with nothing added or lost; the lines hold base64 characters
    only, so none of them is a boundary delimiter (none starts with a
    dash). *)
Theorem html_body_lines (html : jsstring) :
  exists lines,
    wrapText (toString_base64 (utf8_encode html)) 76 = Some lines /\
    concat lines = toString_base64 (utf8_encode html) /\
    Forall (fun l => 1 <= length l <= 76 /\
                     Forall (fun c => base64_char c = true) l) lines /\
    Forall (fun l => length l = 76) (removelast lines) /\
    (forall l b, In l lines -> l <> lit "--" ++ b).
Proof.
  pose proof (toString_base64_alphabet (utf8_encode html)) as Ha.
  pose proof (base64_printable (utf8_encode html)) as Hp.
  assert (Hdash : forall lines,
             Forall (fun l => 1 <= length l <= 76 /\
                              Forall (fun c => base64_char c = true) l) lines ->
             forall l b, In l lines -> l <> lit "--" ++ b).
  { intros lines HF l b Hin Heq. rewrite Forall_forall in HF.
    destruct (HF l Hin) as [_ Hl]. subst l.
    inversion Hl as [|? ? Hc _]. discriminate Hc. }
  destruct (toString_base64 (utf8_encode html)) as [|c s] eqn:E.
  - exists []. repeat split; try constructor. intros l b [].
  - assert (Hw : word (c :: s)).
    { split; [discriminate|]. eapply Forall_impl; [|exact Hp].
      apply printable_not_space. }
    assert (HF : Forall (fun l => 1 <= length l <= 76 /\
                                  Forall (fun c => base64_char c = true) l)
                        (pieces 76 (c :: s))).
    { pose proof (pieces_bound 76 (c :: s)) as Hb.
      pose proof (pieces_Forall (fun c => base64_char c = true) 76 (c :: s) Ha) as Hc.
      assert (Hn : Forall (fun l => 1 <= length l) (pieces 76 (c :: s))).
      { unfold pieces. destruct (76 <? length (c :: s)).
        - apply chunks_aux_nonempty; lia.
        - constructor; [cbn [length]; lia | constructor]. }
      rewrite Forall_forall in *. intros l Hl.
      specialize (Hb l Hl). specialize (Hc l Hl). specialize (Hn l Hl). auto. }
    exists (pieces 76 (c :: s)).
    split; [apply wrapText_one_word; [lia | exact Hw]|].
    split; [apply concat_pieces; lia|].
    split; [exact HF|]. split; [|now apply Hdash].
    unfold pieces. destruct (76 <? length (c :: s)).
    + apply chunks_aux_full.
    + constructor.
Qed.

(* ================================================================== *)
(** ** More on boundaries *)

Lemma hex_digit_char (n : N) : (n < 16)%N -> hex_char (hex_digit n) = true.
Proof.
  intros H. unfold hex_char, hex_digit.
  destruct (N.ltb_spec n 10);
    repeat match goal with
           | |- context [N.leb ?a ?b] => destruct (N.leb_spec a b)
           end; cbn [andb orb]; try reflexivity; lia.
Qed.

Lemma toString_hex_chars (bs : list byte) :
  Forall (fun c => hex_char c = true) (toString_hex bs).
Proof.
  unfold toString_hex. induction bs as [|b bs IH]; [constructor|].
  cbn [flat_map hex_of_byte app]. pose proof (to_N_lt b) as Hb.
  constructor; [apply hex_digit_char; div_lia|].
  constructor; [apply hex_digit_char; div_lia | exact IH].
Qed.

Lemma toString_hex_length (bs : list byte) :
  length (toString_hex bs) = 2 * length bs.
Proof.
  unfold toString_hex. induction bs as [|b bs IH]; [reflexivity|].
  cbn [flat_map hex_of_byte app length]. rewrite IH. lia.
Qed.

Lemma hex_char_safe (c : N) : hex_char c = true -> unsafe_char c = false.
Proof.
  unfold hex_char, unsafe_char. cbn [existsb]. intros H.
  repeat match goal with
         | |- context [N.eqb ?a ?b] =>
             destruct (N.eqb_spec a b); [subst c; discriminate H|]
         end.
  reflexivity.
Qed.

Lemma replace_unsafe_id (s : jsstring) :
  Forall (fun c => unsafe_char c = false) s -> replace_unsafe s = s.
Proof.
  unfold replace_unsafe. induction 1 as [|c s Hc _ IH]; [reflexivity|].
  cbn [map]. now rewrite Hc, IH.
Qed.

(** X10 - For a prefix without characters of the replaced class, as
    [mixed_] and [alternative_] are, [generateSafeBoundary] returns the
    prefix followed by 56 lower-case hexadecimal digits: the replacement
    changes nothing.  The call uses 28 random bytes and touches nothing
    else. *)
Theorem generateSafeBoundary_shape (prefix : jsstring) (s : State) :
  Forall (fun c => unsafe_char c = false) prefix ->
  exists (digits : jsstring) (s' : State),
    generateSafeBoundary prefix s = (Ok (prefix ++ digits), s') /\
    length digits = 56 /\
    Forall (fun c => hex_char c = true) digits /\
    digits = toString_hex (map (random_source (world s))
                             (seq (random_used (world s)) 28)) /\
    random_used (world s') = random_used (world s) + 28 /\
    uuid_used (world s') = uuid_used (world s) /\
    clock_reads (world s') = clock_reads (world s) /\
    store s' = store s /\ this s' = this s.
Proof.
  intros Hprefix. destruct s as [w st e].
  rewrite generateSafeBoundary_run. cbn [world store this].
  eexists _, _. split.
  - unfold boundary_at. rewrite replace_unsafe_id; [reflexivity|].
    apply Forall_app; split; [exact Hprefix|].
    eapply Forall_impl; [apply hex_char_safe | apply toString_hex_chars].
  - split; [now rewrite toString_hex_length, length_map, length_seq|].
    split; [apply toString_hex_chars|]. repeat split.
Qed.

Lemma generateSafeBoundary_shape_witness :
  exists (digits : jsstring) (s' : State),
    generateSafeBoundary (lit "mixed_") (mkState world0 store0 email0) =
      (Ok (lit "mixed_" ++ digits), s') /\
    length digits = 56.
Proof.
  destruct (generateSafeBoundary_shape (lit "mixed_") (mkState world0 store0 email0))
    as (digits & s' & H & Hlen & _).
  - repeat (constructor; [reflexivity|]). constructor.
  - exists digits, s'. split; assumption.
Defined.

(* ================================================================== *)
(** ** Empty addresses *)

Lemma constructor_fields (o : EmailOptions) (st st' : Store) (e : Email) :
  constructor o st = (Ok e, st') ->
  to e = toUsers (Some (opt_to o)) /\
  cc e = toUsers (opt_cc o) /\
  bcc e = toUsers (opt_bcc o) /\
  reply e = match opt_reply o with
            | Some (OfString s) => Some (mkUser None s)
            | Some (OfUser u) => Some u
            | None => None
            end /\
  text e = opt_text o /\ html e = opt_html o /\
  (truthy (opt_text o) = true \/ truthy (opt_html o) = true) /\
  match opt_headers o with
  | Some r => headers e = r /\ st' = st
  | None => headers e = length st /\ st' = st ++ [[]]
  end.
Proof.
  unfold constructor.
  destruct (truthy (opt_text o)) eqn:Ht, (truthy (opt_html o)) eqn:Hh;
    cbn [negb andb]; try discriminate;
    (destruct (opt_headers o); intros H; inversion H; subst;
     cbn [to cc bcc reply text html headers]; repeat split; auto).
Qed.

(** X11 - An empty string as [to] passes the constructor, but the message
    has no recipients and [getEmailData] throws a [TypeError] on it; by
    then the [From] header is written into the headers object, and nothing
    was read from the clock or the random sources. *)
Theorem getEmailData_without_recipients (w : World) (o : EmailOptions)
    (st st' : Store) (e : Email) :
  constructor o st = (Ok e, st') ->
  opt_to o = OneString [] ->
  exists (msg : jsstring) (s' : State),
    run getEmailData w st' e = (Throw (TypeError msg), s') /\
    world s' = w /\ this s' = e /\
    headers_of s' =
      hset (lit "From") (format_user (from e)) (deref st' (headers e)) /\
    (forall r, r <> headers e -> deref (store s') r = deref st' r).
Proof.
  intros Hc Hto. destruct (constructor_fields o st st' e Hc) as (Hto' & _).
  rewrite Hto in Hto'. cbn in Hto'.
  eexists _, _. split; [now apply getEmailData_throws|].
  unfold headers_of. cbn [world this store]. rewrite deref_set_same.
  repeat split. intros r Hr. apply deref_set_other. congruence.
Qed.

Lemma getEmailData_without_recipients_witness :
  exists (e : Email) (st' : Store) (msg : jsstring) (s' : State),
    constructor options_empty_to [] = (Ok e, st') /\
    run getEmailData world0 st' e = (Throw (TypeError msg), s') /\
    headers_of s' = [(lit "From", lit "a@example.com")].
Proof.
  destruct (getEmailData_without_recipients world0 options_empty_to []
              [[]] (mkEmail (mkUser None (lit "a@example.com")) None None None None
                      (lit "Hi") (Some (lit "hello")) None None None 0)
              eq_refl eq_refl) as (msg & s' & Hrun & _ & _ & Hh & _).
  eexists _, _, msg, s'. split; [reflexivity|]. split; [exact Hrun | exact Hh].
Defined.

(** X12 - Empty strings are not treated alike: an empty string as [reply]
    becomes an address and gives a [Reply-To] header with an empty value,
    while an empty string as [cc] counts as absent and leaves the [CC]
    property of the headers object as the caller had it. *)
Theorem empty_reply_and_cc (w : World) (o : EmailOptions) (st st' : Store)
    (e : Email) (users : list User) :
  constructor o st = (Ok e, st') ->
  to e = Some users ->
  exists (p : jsstring) (s' : State),
    run getEmailData w st' e = (Ok p, s') /\
    (opt_reply o = Some (OfString []) ->
     hget (lit "Reply-To") (headers_of s') = Some [] /\
     In (lit "Reply-To: ") (map header_line (entries (headers_of s')))) /\
    (opt_cc o = Some (OneString []) ->
     hget (lit "CC") (headers_of s') = hget (lit "CC") (deref st' (headers e))).
Proof.
  intros Hc Hto.
  destruct (constructor_fields o st st' e Hc) as (_ & Hcc & _ & Hreply & _).
  eexists _, _. split; [now apply (getEmailData_run w st' e users)|].
  rewrite headers_of_final. split.
  - intros Hr. rewrite Hr in Hreply.
    assert (H : hget (lit "Reply-To")
                  (resolved_headers w e users (deref st' (headers e))) = Some []).
    { rewrite resolved_reply_to, Hreply. reflexivity. }
    split; [exact H|].
    apply in_map_iff. exists (lit "Reply-To", []). split; [reflexivity|].
    now apply in_entries, hget_in.
  - intros Hr. rewrite Hr in Hcc. cbn in Hcc.
    now rewrite resolved_cc, Hcc.
Qed.

Lemma empty_reply_and_cc_witness :
  exists (e : Email) (st' : Store) (p : jsstring) (s' : State),
    constructor options_empty_reply [] = (Ok e, st') /\
    run getEmailData world0 st' e = (Ok p, s') /\
    hget (lit "Reply-To") (headers_of s') = Some [] /\
    hget (lit "CC") (headers_of s') = None.
Proof.
  destruct (empty_reply_and_cc world0 options_empty_reply [] [[]]
              (mkEmail (mkUser None (lit "a@example.com")) (Some [user_b])
                 (Some (mkUser None [])) None None
                 (lit "Hi") (Some (lit "hello")) None None None 0)
              [user_b] eq_refl eq_refl) as (p & s' & Hrun & Hr & Hcc).
  eexists _, _, p, s'. split; [reflexivity|]. split; [exact Hrun|].
  split; [apply Hr; reflexivity | apply Hcc; reflexivity].
Defined.

(** X13 - Empty lists are kept: an empty list as [to] or [cc] passes the
    constructor and gives a [To], respectively [CC], header with an empty
    value. *)
Theorem empty_recipient_lists (w : World) (o : EmailOptions) (st st' : Store)
    (e : Email) :
  constructor o st = (Ok e, st') ->
  opt_to o = Many [] ->
  exists (p : jsstring) (s' : State),
    run getEmailData w st' e = (Ok p, s') /\
    hget (lit "To") (headers_of s') = Some [] /\
    In (lit "To: ") (map header_line (entries (headers_of s'))) /\
    (opt_cc o = Some (Many []) ->
     hget (lit "CC") (headers_of s') = Some [] /\
     In (lit "CC: ") (map header_line (entries (headers_of s')))).
Proof.
  intros Hc Hto.
  destruct (constructor_fields o st st' e Hc) as (Hto' & Hcc & _).
  rewrite Hto in Hto'. cbn in Hto'.
  eexists _, _. split; [now apply (getEmailData_run w st' e [])|].
  rewrite headers_of_final.
  assert (H : hget (lit "To") (resolved_headers w e [] (deref st' (headers e)))
              = Some []) by apply resolved_to.
  split; [exact H|]. split.
  - apply in_map_iff. exists (lit "To", []). split; [reflexivity|].
    now apply in_entries, hget_in.
  - intros Hr. rewrite Hr in Hcc. cbn in Hcc.
    assert (H' : hget (lit "CC") (resolved_headers w e [] (deref st' (headers e)))
                 = Some []) by (now rewrite resolved_cc, Hcc).
    split; [exact H'|].
    apply in_map_iff. exists (lit "CC", []). split; [reflexivity|].
    now apply in_entries, hget_in.
Qed.

Lemma empty_recipient_lists_witness :
  exists (e : Email) (st' : Store) (p : jsstring) (s' : State),
    constructor options_empty_lists [] = (Ok e, st') /\
    run getEmailData world0 st' e = (Ok p, s') /\
    hget (lit "To") (headers_of s') = Some [] /\
    hget (lit "CC") (headers_of s') = Some [].
Proof.
  destruct (empty_recipient_lists world0 options_empty_lists [] [[]]
              (mkEmail (mkUser None (lit "a@example.com")) (Some [])
                 None (Some []) None
                 (lit "Hi") (Some (lit "hello")) None None None 0)
              eq_refl eq_refl) as (p & s' & Hrun & Hto & _ & Hcc).
  eexists _, _, p, s'. split; [reflexivity|]. split; [exact Hrun|].
  split; [exact Hto | apply Hcc; reflexivity].
Defined.

(* ================================================================== *)
(** ** The keys and the order of the headers *)

Lemma hset_add_key (k v : jsstring) (h : Headers) :
  map fst (hset k v h) = add_key (map fst h) k.
Proof. apply hset_keys. Qed.

Lemma add_key_keeps (ks : list jsstring) (k k' : jsstring) :
  In k' ks -> In k' (add_key ks k).
Proof.
  unfold add_key. destruct (existsb (str_eqb k) ks); [auto|].
  intros H. apply in_or_app. now left.
Qed.

Lemma fold_add_key_keeps (l ks : list jsstring) (k' : jsstring) :
  In k' ks -> In k' (fold_left add_key l ks).
Proof.
  revert ks; induction l as [|k l IH]; intros ks H; [exact H|].
  cbn [fold_left]. apply IH. now apply add_key_keeps.
Qed.

Lemma add_key_prefix (ks : list jsstring) (k : jsstring) :
  exists new, add_key ks k = ks ++ new.
Proof.
  unfold add_key. destruct (existsb (str_eqb k) ks).
  - exists []. now rewrite app_nil_r.
  - now exists [k].
Qed.

Lemma fold_add_key_prefix (l ks : list jsstring) :
  exists new, fold_left add_key l ks = ks ++ new /\ length new <= length l.
Proof.
  revert ks; induction l as [|k l IH]; intros ks.
  - exists []. split; [now rewrite app_nil_r | cbn; lia].
  - cbn [fold_left]. destruct (IH (add_key ks k)) as (new & E & Hlen).
    unfold add_key in *. destruct (existsb (str_eqb k) ks).
    + exists new. split; [exact E | cbn [length]; lia].
    + exists (k :: new). split; [now rewrite E, <- app_assoc | cbn [length]; lia].
Qed.

Lemma resolved_keys (w : World) (e : Email) (users : list User) (h0 : Headers) :
  map fst (resolved_headers w e users h0) =
  fold_left add_key (written_keys e) (map fst h0).
Proof.
  unfold resolved_headers, written_keys. cbv zeta.
  rewrite !hset_add_key.
  destruct (cc e), (reply e); rewrite ?hset_add_key; reflexivity.
Qed.

(** X14 - [getEmailData] never deletes or moves a header: the keys of the
    headers object after the call are the keys it had, in their places,
    followed by those of [From], [To], [Reply-To] (with a reply address),
    [CC] (with a cc list), [Subject], [Date] and [Message-ID] that were
    missing, in this order; so at most seven keys are new. *)
Theorem header_keys_after (w : World) (st : Store) (e : Email)
    (users : list User) :
  to e = Some users ->
  exists (p : jsstring) (s' : State) (new : list jsstring),
    run getEmailData w st e = (Ok p, s') /\
    map fst (headers_of s') =
      fold_left add_key (written_keys e) (map fst (deref st (headers e))) /\
    map fst (headers_of s') = map fst (deref st (headers e)) ++ new /\
    length new <= 7 /\
    (forall k, In k (map fst (deref st (headers e))) ->
               In k (map fst (headers_of s'))).
Proof.
  intros Hto.
  destruct (fold_add_key_prefix (written_keys e) (map fst (deref st (headers e))))
    as (new & E & Hlen).
  eexists _, _, new. split; [now apply (getEmailData_run w st e users)|].
  rewrite headers_of_final, resolved_keys.
  split; [reflexivity|]. split; [exact E|]. split.
  - etransitivity; [exact Hlen|]. unfold written_keys.
    destruct (reply e), (cc e); cbn; lia.
  - intros k Hk. now apply fold_add_key_keeps.
Qed.

Lemma header_keys_after_witness :
  exists (p : jsstring) (s' : State),
    run getEmailData world0 store1 email1 = (Ok p, s') /\
    map fst (headers_of s') =
      [lit "X-Mailer"; lit "From"; lit "To"; lit "Reply-To"; lit "CC";
       lit "Subject"; lit "Date"; lit "Message-ID"].
Proof.
  destruct (header_keys_after world0 store1 email1
              [user_b; mkUser (Some (lit "Cy")) (lit "cy@example.com")] eq_refl)
    as (p & s' & new & Hrun & Hkeys & _).
  exists p, s'. split; [exact Hrun | exact Hkeys].
Defined.




(* ================================================================== *)
(** ** Shared and separate headers objects *)

(** X16 - Two messages on one headers object (two messages constructed
    with the same [options.headers]) share what [getEmailData] writes:
    after the first message has been composed, the second one is sent
    with the [Message-ID] generated for the first, and no UUID is drawn
    for it; its [From] header is its own. *)
Theorem shared_headers_share_message_id (w : World) (st : Store) (e1 e2 : Email)
    (users1 users2 : list User) :
  to e1 = Some users1 ->
  to e2 = Some users2 ->
  headers e2 = headers e1 ->
  truthy (hget (lit "Message-ID") (deref st (headers e1))) = false ->
  exists (p1 p2 : jsstring) (s1 s2 : State),
    run getEmailData w st e1 = (Ok p1, s1) /\
    run getEmailData (world s1) (store s1) e2 = (Ok p2, s2) /\
    hget (lit "Message-ID") (headers_of s1) = Some (generated_id w e1) /\
    hget (lit "Message-ID") (headers_of s2) = Some (generated_id w e1) /\
    In (lit "Message-ID: " ++ generated_id w e1)
       (map header_line (entries (headers_of s2))) /\
    uuid_used (world s2) = uuid_used (world s1) /\
    hget (lit "From") (headers_of s2) = Some (format_user (from e2)).
Proof.
  intros Hto1 Hto2 Hsame Hfalsy.
  set (s1 := final_state w st e1 users1).
  assert (Hh1 : deref (store s1) (headers e2) =
                resolved_headers w e1 users1 (deref st (headers e1))).
  { rewrite Hsame. unfold s1, final_state. cbn [store]. apply deref_set_same. }
  assert (Hid1 : hget (lit "Message-ID") (deref (store s1) (headers e2)) =
                 Some (generated_id w e1)).
  { rewrite Hh1, resolved_message_id. now rewrite or_else_falsy. }
  assert (Hid2 : hget (lit "Message-ID")
                   (resolved_headers (world s1) e2 users2
                      (deref (store s1) (headers e2))) =
                 Some (generated_id w e1)).
  { rewrite resolved_message_id, Hid1. reflexivity. }
  exists (payload w e1 users1 (deref st (headers e1))),
    (payload (world s1) e2 users2 (deref (store s1) (headers e2))),
    s1, (final_state (world s1) (store s1) e2 users2).
  split; [now apply getEmailData_run|].
  split; [now apply getEmailData_run|].
  rewrite !headers_of_final.
  split; [unfold s1; rewrite headers_of_final, resolved_message_id;
          now rewrite or_else_falsy|].
  split; [exact Hid2|]. split; [|split].
  - apply in_map_iff. exists (lit "Message-ID", generated_id w e1).
    split; [reflexivity|]. now apply in_entries, hget_in.
  - unfold final_state at 1. cbn [world]. unfold final_world at 1.
    cbn [uuid_used]. now rewrite Hid1.
  - apply resolved_from.
Qed.

Lemma shared_headers_share_message_id_witness :
  exists (p1 p2 : jsstring) (s1 s2 : State),
    run getEmailData world0 store0 email0 = (Ok p1, s1) /\
    run getEmailData (world s1) (store s1) email0_other = (Ok p2, s2) /\
    hget (lit "Message-ID") (headers_of s2) =
      Some (lit "<3b241101-e2bb-4255-8caf-4136c566a960@example.com>") /\
    hget (lit "From") (headers_of s2) = Some (lit "z@other.example").
Proof.
  destruct (shared_headers_share_message_id world0 store0 email0 email0_other
              [user_b] [user_b] eq_refl eq_refl eq_refl eq_refl)
    as (p1 & p2 & s1 & s2 & H1 & H2 & _ & Hid & _ & _ & Hfrom).
  exists p1, p2, s1, s2. repeat split; assumption.
Defined.

Lemma deref_app_old (st : Store) (o : Headers) (r : ref) :
  r < length st -> deref (st ++ [o]) r = deref st r.
Proof. intros H. unfold deref. now rewrite app_nth1. Qed.

Lemma deref_app_new (st : Store) (o : Headers) :
  deref (st ++ [o]) (length st) = o.
Proof. unfold deref. rewrite app_nth2, Nat.sub_diag by lia. reflexivity. Qed.

(** X17 - Messages constructed without [options.headers] get headers
    objects of their own: the two references differ, both objects start
    empty, and composing the first message leaves the object of the second
    one empty. *)
Theorem separate_headers_objects (w : World) (o1 o2 : EmailOptions)
    (st st1 st2 : Store) (e1 e2 : Email) (users : list User) :
  constructor o1 st = (Ok e1, st1) ->
  constructor o2 st1 = (Ok e2, st2) ->
  opt_headers o1 = None ->
  opt_headers o2 = None ->
  to e1 = Some users ->
  headers e1 <> headers e2 /\
  deref st2 (headers e1) = [] /\
  deref st2 (headers e2) = [] /\
  exists (p : jsstring) (s' : State),
    run getEmailData w st2 e1 = (Ok p, s') /\
    deref (store s') (headers e2) = [] /\
    hget (lit "From") (deref (store s') (headers e1)) =
      Some (format_user (from e1)).
Proof.
  intros Hc1 Hc2 Hn1 Hn2 Hto.
  destruct (constructor_fields o1 st st1 e1 Hc1) as (_ & _ & _ & _ & _ & _ & _ & H1).
  destruct (constructor_fields o2 st1 st2 e2 Hc2) as (_ & _ & _ & _ & _ & _ & _ & H2).
  rewrite Hn1 in H1. rewrite Hn2 in H2.
  destruct H1 as [Hr1 Hst1]. destruct H2 as [Hr2 Hst2].
  assert (Hlen : length st1 = S (length st)).
  { rewrite Hst1, length_app. cbn [length]. lia. }
  assert (Hne : headers e1 <> headers e2) by lia.
  assert (Hd1 : deref st2 (headers e1) = []).
  { rewrite Hst2, deref_app_old by lia. rewrite Hst1, Hr1. apply deref_app_new. }
  assert (Hd2 : deref st2 (headers e2) = []).
  { rewrite Hst2, Hr2. apply deref_app_new. }
  split; [exact Hne|]. split; [exact Hd1|]. split; [exact Hd2|].
  eexists _, _. split; [now apply (getEmailData_run w st2 e1 users)|].
  unfold final_state. cbn [store]. split.
  - now rewrite deref_set_other.
  - rewrite deref_set_same. apply resolved_from.
Qed.

Lemma separate_headers_objects_witness :
  exists (e1 e2 : Email) (st2 : Store) (p : jsstring) (s' : State),
    constructor options0 [] = (Ok e1, [[]]) /\
    constructor options_blank_text [[]] = (Ok e2, st2) /\
    headers e1 <> headers e2 /\
    run getEmailData world0 st2 e1 = (Ok p, s') /\
    deref (store s') (headers e2) = [].
Proof.
  destruct (separate_headers_objects world0 options0 options_blank_text
              [] [[]] [[]; []] email0
              (mkEmail (mkUser None (lit "a@example.com")) (Some [user_b])
                 None None None (lit "Hi") (Some (lit "   ")) None None None 1)
              [user_b] eq_refl eq_refl eq_refl eq_refl eq_refl)
    as (Hne & _ & _ & p & s' & Hrun & Hd & _).
  eexists _, _, _, p, s'. split; [reflexivity|]. split; [reflexivity|].
  split; [exact Hne|]. split; [exact Hrun | exact Hd].
Defined.

(* ================================================================== *)
(** ** What a call reads *)

(** X18 - One call of [getEmailData] on a message with recipients reads
    exactly 56 random bytes (28 for each boundary), reads the clock once
    for [Date] and once for every attachment, and draws one UUID when the
    headers object has no non-empty [Message-ID] and none otherwise. *)
Theorem getEmailData_reads (w : World) (st : Store) (e : Email)
    (users : list User) :
  to e = Some users ->
  exists (p : jsstring) (s' : State),
    run getEmailData w st e = (Ok p, s') /\
    random_used (world s') = random_used w + 56 /\
    clock_reads (world s') = clock_reads w + 1 + length (attachment_list e) /\
    uuid_used (world s') =
      uuid_used w
      + (if truthy (hget (lit "Message-ID") (deref st (headers e))) then 0 else 1) /\
    random_source (world s') = random_source w /\
    uuid_source (world s') = uuid_source w /\
    clock (world s') = clock w.
Proof.
  intros Hto.
  eexists _, _. split; [now apply (getEmailData_run w st e users)|].
  unfold final_state, final_world. cbn [world random_used clock_reads uuid_used
    random_source uuid_source clock].
  repeat split; try lia.
  destruct (truthy (hget (lit "Message-ID") (deref st (headers e)))); lia.
Qed.

Lemma getEmailData_reads_witness :
  exists (p : jsstring) (s' : State),
    run getEmailData world0 store1 email1 = (Ok p, s') /\
    random_used (world s') = 56 /\ clock_reads (world s') = 3 /\
    uuid_used (world s') = 1.
Proof.
  destruct (getEmailData_reads world0 store1 email1
              [user_b; mkUser (Some (lit "Cy")) (lit "cy@example.com")] eq_refl)
    as (p & s' & Hrun & Hr & Hc & Hu & _).
  exists p, s'. repeat split; assumption.
Defined.

(* ================================================================== *)
(** ** The alternative block of a constructed message *)

(** X19 - The alternative block of a constructed message is never empty:
    at least one of [text] and [html] is non-empty, and the sub-parts of
    the block in the payload are the [text/plain] sub-part with the lines
    [wrapText] returns for the text at 998, if the text is non-empty,
    followed by the [text/html] sub-part with the lines [wrapText] returns
    for the base64 text of the html at 76, if the html is non-empty: one
    sub-part or two. *)
Theorem alternative_block_never_empty (w : World) (o : EmailOptions)
    (st st' : Store) (e : Email) (users : list User) :
  constructor o st = (Ok e, st') ->
  to e = Some users ->
  let mixed := boundary_at (lit "mixed_") w (random_used w) in
  let alt := boundary_at (lit "alternative_") w (random_used w + 28) in
  exists (p : jsstring) (s' : State) (tlines hlines subparts : list jsstring),
    run getEmailData w st' e = (Ok p, s') /\
    wrapText (interp (opt_text o)) 998 = Some tlines /\
    wrapText (toString_base64 (utf8_encode (interp (opt_html o)))) 76 =
      Some hlines /\
    subparts =
      (if truthy (opt_text o) then [text_part alt tlines] else [])
      ++ (if truthy (opt_html o) then [html_part alt hlines] else []) /\
    p = header_block (entries (headers_of s')) mixed ++ CRLF ++ CRLF
        ++ delimiter mixed
        ++ alternative_block alt subparts
        ++ concat (attachment_blocks mixed (clock w) (S (clock_reads w))
                     (attachment_list e))
        ++ close_delimiter mixed ++ lit "." ++ CRLF /\
    (truthy (opt_text o) = true \/ truthy (opt_html o) = true) /\
    subparts <> [] /\
    1 <= length subparts <= 2.
Proof.
  intros Hc Hto mixed alt.
  destruct (constructor_fields o st st' e Hc)
    as (_ & _ & _ & _ & Ht & Hh & Hsome & _).
  exists (payload w e users (deref st' (headers e))), (final_state w st' e users),
    (lines_of (wrapText (interp (opt_text o)) 998)),
    (lines_of (wrapText (toString_base64 (utf8_encode (interp (opt_html o)))) 76)),
    (alternative_parts alt e).
  split; [now apply (getEmailData_run w st' e users)|].
  split; [apply wrapText_lines; lia|].
  split; [apply wrapText_lines; lia|].
  split; [unfold alternative_parts; now rewrite Ht, Hh|].
  split; [rewrite headers_of_final; reflexivity|].
  split; [exact Hsome|].
  unfold alternative_parts. rewrite Ht, Hh.
  destruct (truthy (opt_text o)), (truthy (opt_html o)); cbn [app length];
    try (split; [discriminate | lia]);
    destruct Hsome; discriminate.
Qed.

Lemma alternative_block_never_empty_witness :
  exists (p : jsstring) (s' : State) (tlines : list jsstring),
    run getEmailData world0 store0 email0 = (Ok p, s') /\
    wrapText (lit "hello") 998 = Some tlines /\
    p = header_block (entries (headers_of s'))
          (boundary_at (lit "mixed_") world0 0) ++ CRLF ++ CRLF
        ++ delimiter (boundary_at (lit "mixed_") world0 0)
        ++ alternative_block (boundary_at (lit "alternative_") world0 28)
             [text_part (boundary_at (lit "alternative_") world0 28) tlines]
        ++ close_delimiter (boundary_at (lit "mixed_") world0 0)
        ++ lit "." ++ CRLF.
Proof.
  destruct (alternative_block_never_empty world0 options0 [] store0 email0 [user_b]
              eq_refl eq_refl)
    as (p & s' & tlines & hlines & subparts & Hrun & Ht & _ & Hsub & Hp & _).
  exists p, s', tlines. split; [exact Hrun|]. split; [exact Ht|].
  rewrite Hp, Hsub. reflexivity.
Defined.

(* ================================================================== *)
(** ** More on [getMimeType], [toUsers] and the text part *)

Lemma toLowerCase_nonempty (x y : jsstring) :
  toLowerCase x = toLowerCase y -> nonempty x = nonempty y.
Proof. destruct x, y; cbn; intros H; congruence. Qed.

(** X20 - [getMimeType] looks at nothing but the text after the last dot
    of the filename, without regard to the case of ASCII letters: two
    filenames whose last segments are equal up to case get the same type,
    and a filename without a dot is treated as if it were all extension. *)
Theorem getMimeType_last_segment (base base' x y : jsstring) :
  ~ In dot x -> ~ In dot y ->
  toLowerCase x = toLowerCase y ->
  getMimeType (base ++ dot :: x) = getMimeType (base' ++ dot :: y) /\
  getMimeType (base ++ dot :: x) = getMimeType y.
Proof.
  intros Hx Hy Hxy.
  rewrite (getMimeType_key (base ++ dot :: x) x) by now apply pop_split_after_last.
  rewrite (getMimeType_key (base' ++ dot :: y) y) by now apply pop_split_after_last.
  rewrite (getMimeType_key y y) by now apply pop_split_whole.
  rewrite Hxy, (toLowerCase_nonempty x y Hxy). split; reflexivity.
Qed.

Lemma getMimeType_last_segment_witness :
  getMimeType (lit "scan.final.PNG") = getMimeType (lit "x.png") /\
  getMimeType (lit "scan.final.PNG") = getMimeType (lit "png").
Proof.
  apply (getMimeType_last_segment (lit "scan.final") (lit "x") (lit "PNG") (lit "png")).
  - cbn. intros H. repeat (destruct H as [H|H]; [discriminate H|]). exact H.
  - cbn. intros H. repeat (destruct H as [H|H]; [discriminate H|]). exact H.
  - reflexivity.
Defined.

Lemma toUsers_emails (l : list StringOrUser) :
  forall users, toUsers (Some (Many l)) = Some users ->
    map email users = map email_of l /\ length users = length l.
Proof.
  intros users H. cbn in H. inversion H; subst; clear H.
  rewrite map_map, length_map. split; [|reflexivity].
  apply map_ext. now intros [s|u].
Qed.

(** X21 - [toUsers] keeps the addresses of a list and their order, one
    recipient per element, and a list of user objects is returned as it
    is: normalizing a normalized list changes nothing. *)
Theorem toUsers_keeps_order :
  (forall l, exists users,
     toUsers (Some (Many l)) = Some users /\
     map email users = map email_of l /\ length users = length l /\
     toUsers (Some (Many (map OfUser users))) = Some users) /\
  (forall users, toUsers (Some (Many (map OfUser users))) = Some users).
Proof.
  assert (Hid : forall users, toUsers (Some (Many (map OfUser users))) = Some users).
  { intros users. cbn. f_equal. rewrite map_map. apply map_id. }
  split.
  - intros l. eexists. split; [reflexivity|].
    destruct (toUsers_emails l _ eq_refl) as [He Hl].
    split; [exact He|]. split; [exact Hl | apply Hid].
  - exact Hid.
Qed.

(** X22 - A text of white space only counts as provided: the message is
    constructed, and its payload has a [text/plain] sub-part with an empty
    body. *)
Theorem blank_text_part (o : EmailOptions) (st : Store) (t : jsstring) :
  opt_text o = Some t ->
  t <> [] ->
  Forall (fun c => is_space c = true) t ->
  truthy (opt_html o) = false ->
  exists (e : Email) (st' : Store),
    constructor o st = (Ok e, st') /\
    forall w users, to e = Some users ->
      exists (p : jsstring) (s' : State) (hs : list (jsstring * jsstring))
             (mixed alt rest : jsstring),
        run getEmailData w st' e = (Ok p, s') /\
        p = header_block hs mixed ++ CRLF ++ CRLF ++ delimiter mixed
            ++ alternative_block alt
                 [delimiter alt
                  ++ lit "Content-Type: text/plain; charset=" ++ DQ
                  ++ lit "utf-8" ++ DQ ++ CRLF ++ CRLF ++ CRLF ++ CRLF]
            ++ rest.
Proof.
  intros Ht Hne Hblank Hh.
  assert (Htruthy : truthy (opt_text o) = true).
  { rewrite Ht. cbn. now apply nonempty_true. }
  destruct (constructor (o) st) as [r st'] eqn:Hc.
  assert (Hok : exists e, r = Ok e).
  { unfold constructor in Hc. rewrite Htruthy in Hc. cbn [negb andb] in Hc.
    destruct (opt_headers o); inversion Hc; eexists; reflexivity. }
  destruct Hok as [e ->]. exists e, st'. split; [reflexivity|].
  intros w users Hto.
  destruct (constructor_fields o st st' e Hc) as (_ & _ & _ & _ & Het & Heh & _).
  eexists _, _, _, _, (boundary_at (lit "alternative_") w (random_used w + 28)), _.
  split; [now apply (getEmailData_run w st' e users)|].
  unfold payload. cbv zeta. unfold alternative_parts.
  rewrite Het, Heh, Htruthy, Hh, Ht. cbn [interp app].
  assert (Hw : wrapText t 998 = Some []).
  { unfold wrapText. now rewrite match_nonspace_blank. }
  rewrite Hw. reflexivity.
Qed.

Lemma blank_text_part_witness :
  exists (e : Email) (st' : Store),
    constructor options_blank_text [] = (Ok e, st') /\
    forall w users, to e = Some users ->
      exists (p : jsstring) (s' : State) (hs : list (jsstring * jsstring))
             (mixed alt rest : jsstring),
        run getEmailData w st' e = (Ok p, s') /\
        p = header_block hs mixed ++ CRLF ++ CRLF ++ delimiter mixed
            ++ alternative_block alt
                 [delimiter alt
                  ++ lit "Content-Type: text/plain; charset=" ++ DQ
                  ++ lit "utf-8" ++ DQ ++ CRLF ++ CRLF ++ CRLF ++ CRLF]
            ++ rest.
Proof.
  apply (blank_text_part options_blank_text [] (lit "   ")).
  - reflexivity.
  - discriminate.
  - vm_compute. repeat constructor.
  - reflexivity.
Defined.

(* ================================================================== *)
(** ** Calling [getEmailData] again *)

Lemma hset_same_value (k v : jsstring) (h : Headers) :
  hget k h = Some v -> hset k v h = h.
Proof.
  induction h as [|[k' v'] h IH]; simpl; [discriminate|].
  destruct (str_eqb k k'); intros H.
  - now inversion H.
  - now rewrite IH.
Qed.

Lemma or_else_some_nonempty (m d : jsstring) :
  nonempty m = true -> or_else (Some m) d = m.
Proof. simpl. now intros ->. Qed.

(** Resolving the headers of a message on the headers object a previous
    call has left rewrites [Date] and changes nothing else. *)
Lemma resolved_again (w w' : World) (e : Email) (users : list User)
    (h0 : Headers) :
  resolved_headers w' e users (resolved_headers w e users h0) =
  hset (lit "Date") (clock w' (clock_reads w')) (resolved_headers w e users h0).
Proof.
  pose proof (resolved_from w e users h0) as Hfrom.
  pose proof (resolved_to w e users h0) as Hto.
  pose proof (resolved_reply_to w e users h0) as Hreply.
  pose proof (resolved_cc w e users h0) as Hcc.
  pose proof (resolved_subject w e users h0) as Hsubject.
  pose proof (resolved_message_id w e users h0) as Hid.
  assert (Hne : nonempty (or_else (hget (lit "Message-ID") h0) (generated_id w e))
                = true)
    by (apply or_else_nonempty, generated_id_nonempty).
  set (h1 := resolved_headers w e users h0) in *.
  set (m := or_else (hget (lit "Message-ID") h0) (generated_id w e)) in *.
  unfold resolved_headers. cbv zeta.
  rewrite (hset_same_value _ _ h1 Hfrom), (hset_same_value _ _ h1 Hto).
  assert (Hr : match reply e with
               | Some r => hset (lit "Reply-To") (format_user r) h1
               | None => h1
               end = h1).
  { destruct (reply e); [now apply hset_same_value | reflexivity]. }
  rewrite Hr.
  assert (Hc : match cc e with
               | Some l => hset (lit "CC") (join (lit ", ") (map format_user l)) h1
               | None => h1
               end = h1).
  { destruct (cc e); [now apply hset_same_value | reflexivity]. }
  rewrite Hc.
  change (lit "=?utf-8?b?" ++ toString_base64 (utf8_encode (subject e)) ++ lit "?=")
    with (subject_word e).
  rewrite (hset_same_value _ _ h1 Hsubject).
  apply hset_same_value.
  rewrite hget_hset_other by keys_differ.
  rewrite Hid, (or_else_some_nonempty m _ Hne). reflexivity.
Qed.

(** X23 - A second call of [getEmailData] on the same message rewrites the
    [Date] header and changes nothing else in the headers object: every
    entry keeps its place, and every key other than [Date] its value. *)
Theorem second_call_rewrites_date (w : World) (st : Store) (e : Email)
    (users : list User) :
  to e = Some users ->
  exists (p1 p2 : jsstring) (s1 s2 : State),
    run getEmailData w st e = (Ok p1, s1) /\
    getEmailData s1 = (Ok p2, s2) /\
    headers_of s2 =
      hset (lit "Date") (clock w (S (length (attachment_list e) + clock_reads w)))
        (headers_of s1) /\
    map fst (headers_of s2) = map fst (headers_of s1) /\
    (forall k, k <> lit "Date" ->
       hget k (headers_of s2) = hget k (headers_of s1)).
Proof.
  intros Hto.
  set (s1 := final_state w st e users).
  assert (H2 : getEmailData s1 =
               (Ok (payload (world s1) e users (deref (store s1) (headers e))),
                final_state (world s1) (store s1) e users)).
  { apply (getEmailData_run (world s1) (store s1) e users Hto). }
  assert (Hh : headers_of (final_state (world s1) (store s1) e users) =
               hset (lit "Date")
                 (clock w (S (length (attachment_list e) + clock_reads w)))
                 (headers_of s1)).
  { rewrite headers_of_final. unfold s1. rewrite headers_of_final.
    unfold final_state. cbn [store world]. rewrite deref_set_same.
    rewrite resolved_again. unfold final_world. cbn [clock clock_reads].
    now rewrite Nat.add_succ_r. }
  eexists _, _, s1, _.
  split; [now apply (getEmailData_run w st e users)|].
  split; [exact H2|]. split; [exact Hh|]. split.
  - rewrite Hh, hset_keys.
    assert (Hin : existsb (str_eqb (lit "Date")) (map fst (headers_of s1)) = true).
    { apply existsb_exists. exists (lit "Date"). split; [|apply str_eqb_refl].
      unfold s1. rewrite headers_of_final.
      apply (in_map fst _ (lit "Date", clock w (clock_reads w))).
      apply hget_in, resolved_date. }
    now rewrite Hin.
  - intros k Hk. rewrite Hh. apply hget_hset_other. congruence.
Qed.

Lemma second_call_rewrites_date_witness :
  exists (p1 p2 : jsstring) (s1 s2 : State),
    run getEmailData world0 store1 email1 = (Ok p1, s1) /\
    getEmailData s1 = (Ok p2, s2) /\
    map fst (headers_of s2) = map fst (headers_of s1).
Proof.
  destruct (second_call_rewrites_date world0 store1 email1
              [user_b; mkUser (Some (lit "Cy")) (lit "cy@example.com")] eq_refl)
    as (p1 & p2 & s1 & s2 & H1 & H2 & _ & Hk & _).
  exists p1, p2, s1, s2. auto.
Defined.

(* ================================================================== *)
(** ** Wrapping a wrapped text *)

Lemma match_nonspace_join_CRLF (lines : list jsstring) :
  match_nonspace (join CRLF lines) = flat_map match_nonspace lines.
Proof.
  induction lines as [|x [|y t] IH].
  - reflexivity.
  - cbn [join flat_map]. now rewrite app_nil_r.
  - change (join CRLF (x :: y :: t)) with (x ++ 13%N :: ([] ++ 10%N :: join CRLF (y :: t))).
    rewrite (match_nonspace_app x _ 13%N) by reflexivity.
    rewrite (match_nonspace_app [] _ 10%N) by reflexivity.
    rewrite IH. reflexivity.
Qed.

Lemma flat_map_pieces_short (n : nat) (ws : list jsstring) :
  Forall (fun w => length w <= n) ws -> flat_map (pieces n) ws = ws.
Proof.
  induction 1 as [|w ws Hw _ IH]; [reflexivity|].
  cbn [flat_map]. rewrite IH. unfold pieces.
  destruct (Nat.ltb_spec n (length w)); [lia | reflexivity].
Qed.

(** X24 - Wrapping is idempotent on a text without over-long words: the
    lines joined by CRLF, as they stand in the payload, have the words of
    the text, and wrapping them again at the same limit gives the same
    lines. *)
Theorem wrapText_idempotent (text : jsstring) (limit : nat) :
  0 < limit ->
  Forall (fun w => length w <= limit) (match_nonspace text) ->
  exists lines,
    wrapText text limit = Some lines /\
    match_nonspace (join CRLF lines) = match_nonspace text /\
    wrapText (join CRLF lines) limit = Some lines.
Proof.
  intros Hn Hshort.
  destruct (wrapText_spec text limit Hn) as (lines & E & _ & W).
  rewrite (flat_map_pieces_short limit _ Hshort) in W.
  exists lines. split; [exact E|].
  assert (Hw : match_nonspace (join CRLF lines) = match_nonspace text)
    by now rewrite match_nonspace_join_CRLF.
  split; [exact Hw|].
  unfold wrapText in *. now rewrite Hw.
Qed.

Lemma wrapText_idempotent_witness :
  exists lines,
    wrapText (lit "to be  or not to be") 5 = Some lines /\
    match_nonspace (join CRLF lines) = match_nonspace (lit "to be  or not to be") /\
    wrapText (join CRLF lines) 5 = Some lines.
Proof.
  apply (wrapText_idempotent (lit "to be  or not to be") 5).
  - lia.
  - vm_compute. repeat constructor.
Defined.
